(** * dnscheck: a shallow embedding of [main.go] and its specification

    The development follows the layout of the Go source: the data model
    ([IPCheckResult], [DomainResult]), the ownership lookup
    ([extractLLC], [queryLLCFromAPI], [isRetryable], [backoffDuration],
    [fetchLLCWithRetry]), the aggregator ([aggregateDomainResult]), the
    per-domain task of [main] and the statistics of [buildReport].

    Go strings are byte strings; they are modelled by [string], whose
    characters are bytes, so the non-ASCII literals of the source stand for
    their UTF-8 encoding, as they do in Go. *)

From Stdlib Require Import ZArith String Ascii List Bool Lia DecimalString.
From Stdlib Require Import Floats.SpecFloat.
From stdpp Require Import base option list gmap strings.

Set Warnings "-register-all".
Local Open Scope string_scope.
Local Open Scope Z_scope.

(** ** Errors *)

(** A Go [error] value, as far as the program observes it: its text
    ([err.Error()]) and, for the values built by [fmt.Errorf] with [%w],
    the error it wraps.  [ErrExternal] stands for the errors handed over by
    the libraries ([net/http], [io], [encoding/json], [net]). *)
Inductive error : Type :=
| ErrExternal (msg : string)
| ErrString (msg : string)                (* [fmt.Errorf] with nothing wrapped *)
| ErrWrap (msg : string) (err : error).   (* [fmt.Errorf] with a [%w] operand *)

(** [err.Error()] *)
Definition errorText (e : error) : string :=
  match e with
  | ErrExternal msg => msg
  | ErrString msg => msg
  | ErrWrap msg _ => msg
  end.

(** [errors.Unwrap] *)
Definition unwrap (e : error) : option error :=
  match e with
  | ErrExternal _ => None
  | ErrString _ => None
  | ErrWrap _ err => Some err
  end.

(** [fmt.Errorf(pre + "%w", err)]: a [nil] operand is printed as a bad verb
    and nothing is wrapped. *)
Definition errorfW (pre : string) (err : option error) : error :=
  match err with
  | Some e => ErrWrap (pre +:+ errorText e) e
  | None => ErrString (pre +:+ "%!w(<nil>)")
  end.

(** ** Strings *)

(** [strings.HasPrefix(s, prefix)]: a byte-wise comparison. *)
Definition HasPrefix (s pre : string) : bool := String.prefix pre s.

(** [strings.Contains(s, substr)] *)
Fixpoint Contains (s substr : string) : bool :=
  String.prefix substr s
  || match s with
     | EmptyString => false
     | String _ s' => Contains s' substr
     end.

(** ** Results *)

Record IPCheckResult : Type := mkIPCheckResult {
  IP : string;
  ActualLLC : string;
  Error : option error   (* [None] is Go's [nil]: the lookup succeeded *)
}.

Record DomainResult : Type := mkDomainResult {
  Domain : string;
  Expected : list string;
  IPResults : list IPCheckResult;
  IsPolluted : bool;
  Summary : string
}.

(** ** The aggregator *)

Module Aggregator.

(** The inner loop of [aggregateDomainResult]: the first expected prefix
    that the label starts with ends the scan. *)
Fixpoint matchExpected (label : string) (expected : list string) : bool :=
  match expected with
  | [] => false
  | exp :: rest => if HasPrefix label exp then true else matchExpected label rest
  end.

(** The three variables the outer loop updates. *)
Record loopState : Type := mkLoop {
  ipMatches : list bool;
  anySuccess : bool;
  allMatch : bool
}.

Definition initLoop (n : nat) : loopState :=
  {| ipMatches := replicate n false; anySuccess := false; allMatch := true |}.

(** One iteration of [for i, res := range ipResults]. *)
Definition loopBody (expected : list string) (i : nat) (res : IPCheckResult)
    (st : loopState) : loopState :=
  match Error res with
  | Some _ =>
      {| ipMatches := <[i := false]> (ipMatches st);
         anySuccess := anySuccess st;
         allMatch := false |}
  | None =>
      let matched := matchExpected (ActualLLC res) expected in
      {| ipMatches := <[i := matched]> (ipMatches st);
         anySuccess := if matched then true else anySuccess st;
         allMatch := if matched then allMatch st else false |}
  end.

Fixpoint loop (expected : list string) (i : nat) (rs : list IPCheckResult)
    (st : loopState) : loopState :=
  match rs with
  | [] => st
  | res :: rs' => loop expected (S i) rs' (loopBody expected i res st)
  end.

Definition runLoop (expected : list string) (ipResults : list IPCheckResult) : loopState :=
  loop expected 0%nat ipResults (initLoop (length ipResults)).

Definition aggregateDomainResult (domain : string) (expected : list string)
    (ipResults : list IPCheckResult) (strict : bool) : DomainResult :=
  let st := runLoop expected ipResults in
  let polluted := if strict then negb (allMatch st) else negb (anySuccess st) in
  let summary :=
    if strict then
      if polluted then "严格模式：部分 IP 不符合预期" else "所有 IP 均符合预期"
    else
      if polluted then "宽松模式：无任何 IP 符合预期" else "至少有一个 IP 符合预期" in
  {| Domain := domain;
     Expected := expected;
     IPResults := ipResults;
     IsPolluted := polluted;
     Summary := summary |}.

End Aggregator.

(** ** The environment and the effects of the program *)

(** A value decoded by [encoding/json] into an [interface{}]. *)
Inductive jvalue : Type :=
| JNull
| JBool (b : bool)
| JNumber (f : spec_float)
| JString (s : string)
| JArray (items : list jvalue)
| JObject (fields : list (string * jvalue)).

(** [IPInfoRaw], a [map[string]interface{}]. *)
Abbreviation IPInfoRaw := (gmap string jvalue).

(** [time.Duration]: a signed 64-bit count of nanoseconds. *)
Definition wrap64 (z : Z) : Z := (z + 2 ^ 63) mod 2 ^ 64 - 2 ^ 63.
Definition Second : Z := 1000000000.

(** What [client.Get] hands back when it reports no error. *)
Record httpResponse : Type := mkResponse {
  StatusCode : Z;
  Body : error + string          (* the outcome of [io.ReadAll(resp.Body)] *)
}.

(** The calls that leave the process, in the order they are made. *)
Inductive event : Type :=
| EvLookupIP (name : string)     (* [r.LookupIP(ctx, "ip4", name)] *)
| EvWait                         (* [limiter.Wait]: one token is taken *)
| EvGet (url : string)           (* [client.Get(url)] *)
| EvSleep (d : Z).               (* [time.Sleep(d)] *)

(** The world outside the program.  The name service and the ownership
    service may answer differently at every call: they see the whole history
    of calls made before.  [jsonUnmarshal] and [fmtMap] are the library
    functions [json.Unmarshal] (into an [IPInfoRaw]) and the [%v] rendering
    of such a map. *)
Record Env : Type := mkEnv {
  lookupIP : list event -> Z -> string -> list string * option error;
  httpGet : list event -> Z -> string -> error + httpResponse;
  jsonUnmarshal : string -> error + IPInfoRaw;
  fmtMap : IPInfoRaw -> string
}.

(** Computations that extend the history of calls. *)
Definition M (A : Type) : Type := list event -> A * list event.

Definition ret {A} (a : A) : M A := fun tr => (a, tr).
Definition bind {A B} (m : M A) (k : A -> M B) : M B :=
  fun tr => let (a, tr') := m tr in k a tr'.
Definition emit (ev : event) : M unit := fun tr => (tt, (tr ++ [ev])%list).
Definition history : M (list event) := fun tr => (tr, tr).

Notation "x <- m ;; k" := (bind m (fun x => k))
  (at level 100, m at next level, right associativity).
Notation "m ;;; k" := (bind m (fun _ => k))
  (at level 100, right associativity).

(** ** The ownership lookup client *)

Module Lookup.

(** [%d] of an [int]. *)
Definition itoa (n : Z) : string := DecimalString.NilZero.string_of_int (Z.to_int n).

Definition possibleKeys : list string :=
  ["llc"; "isp"; "carrier"; "org"; "asn_description"].

(** The loop of [extractLLC] over the candidate keys. *)
Fixpoint probe (data : IPInfoRaw) (keys : list string) : option string :=
  match keys with
  | [] => None
  | key :: rest =>
      match data !! key with
      | Some (JString str) => if negb (String.eqb str "") then Some str else probe data rest
      | _ => probe data rest
      end
  end.

Definition extractLLC (env : Env) (data : IPInfoRaw) : string * option error :=
  match probe data possibleKeys with
  | Some str => (str, None)
  | None =>
      ("", Some (ErrString ("无法从响应中提取 LLC 字段，响应内容: " +:+ fmtMap env data)))
  end.

Definition queryLLCFromAPI (env : Env) (ip baseURL : string) (timeout : Z)
    : M (string * option error) :=
  let url := baseURL +:+ ip in
  tr <- history ;;
  emit (EvGet url) ;;;
  match httpGet env tr timeout url with
  | inl err => ret ("", Some (errorfW "HTTP 请求失败: " (Some err)))
  | inr resp =>
      if negb (StatusCode resp =? 200) then
        ret ("", Some (ErrString ("API 返回非 200 状态码: " +:+ itoa (StatusCode resp))))
      else
        match Body resp with
        | inl err => ret ("", Some (errorfW "读取响应体失败: " (Some err)))
        | inr body =>
            match jsonUnmarshal env body with
            | inl err => ret ("", Some (errorfW "JSON 解析失败: " (Some err)))
            | inr raw =>
                match extractLLC env raw with
                | (_, Some err) => ret ("", Some err)
                | (llc, None) => ret (llc, None)
                end
            end
        end
  end.

Definition isRetryable (err : option error) : bool :=
  match err with
  | None => false
  | Some e =>
      if Contains (errorText e) "timeout" || Contains (errorText e) "EOF" then true
      else false
  end.

(** [time.Duration(1<<uint(attempt)) * time.Second], in 64-bit arithmetic:
    the constant [1] takes the type [time.Duration], a shift by 64 or more
    gives 0, and the product wraps around. *)
Definition backoffDuration (attempt : Z) : Z :=
  wrap64 (wrap64 (Z.shiftl 1 (attempt mod 2 ^ 64)) * Second).

(** How the loop over the attempts on one endpoint is left. *)
Inductive loopExit : Type :=
| Returned (llc : string)              (* [return llc, nil] *)
| Broke (lastErr : option error).      (* the loop ended; [lastErr] as it stands *)

(** [for attempt := 0; attempt <= maxRetries; attempt++]: the body never
    assigns [attempt], so the loop ranges over the values
    [0, 1, ..., maxRetries] in turn ([attempts] below is what is left of
    them). *)
Fixpoint retryLoop (env : Env) (ip baseURL : string) (timeout maxRetries : Z)
    (attempts : list Z) (lastErr : option error) : M loopExit :=
  match attempts with
  | [] => ret (Broke lastErr)
  | attempt :: rest =>
      r <- queryLLCFromAPI env ip baseURL timeout ;;
      match r with
      | (llc, None) => ret (Returned llc)
      | (_, Some e) =>
          if isRetryable (Some e) && (attempt <? maxRetries) then
            emit (EvSleep (backoffDuration attempt)) ;;;
            retryLoop env ip baseURL timeout maxRetries rest (Some e)
          else ret (Broke (Some e))
      end
  end.

(** [for _, baseURL := range apiList] *)
Fixpoint endpointLoop (env : Env) (ip : string) (timeout maxRetries : Z)
    (apiList : list string) (lastErr : option error) : M (string * option error) :=
  match apiList with
  | [] => ret ("", Some (errorfW "所有 API 尝试均失败: " lastErr))
  | baseURL :: rest =>
      x <- retryLoop env ip baseURL timeout maxRetries (seqZ 0 (maxRetries + 1)) lastErr ;;
      match x with
      | Returned llc => ret (llc, None)
      | Broke lastErr' => endpointLoop env ip timeout maxRetries rest lastErr'
      end
  end.

Definition fetchLLCWithRetry (env : Env) (ip : string) (apiList : list string)
    (timeout maxRetries : Z) : M (string * option error) :=
  endpointLoop env ip timeout maxRetries apiList None.

End Lookup.

(** ** The orchestrator: the body of [main] *)

Module Orchestrator.

Record DomainConfig : Type := mkDomainConfig {
  Name : string;
  ExpectedLlcs : list string
}.

(** [rate.Limiter]: the refill rate and the capacity of the bucket. *)
Record Limiter : Type := mkLimiter {
  limit : spec_float;
  burst : Z
}.

(** The command line, after [flag.Parse] and the split of [-api]. *)
Record Flags : Type := mkFlags {
  apiList : list string;
  strict : bool;
  timeout : Z;
  rps : spec_float;
  maxRetries : Z
}.

(** The limiter is created only for a positive [-rps], with capacity 1. *)
Definition newLimiter (fl : Flags) : option Limiter :=
  if SFltb (S754_zero false) (rps fl) then Some {| limit := rps fl; burst := 1 |}
  else None.

(** [if limiter != nil { _ = limiter.Wait(context.Background()) }] *)
Definition waitLimiter (limiter : option Limiter) : M unit :=
  match limiter with
  | Some _ => emit EvWait
  | None => ret tt
  end.

(** [for _, ip := range ips]: one wait on the limiter, one lookup, one
    result appended. *)
Fixpoint ipLoop (env : Env) (fl : Flags) (limiter : option Limiter)
    (ips : list string) (ipResults : list IPCheckResult) : M (list IPCheckResult) :=
  match ips with
  | [] => ret ipResults
  | ip :: rest =>
      waitLimiter limiter ;;;
      r <- Lookup.fetchLLCWithRetry env ip (apiList fl) (timeout fl) (maxRetries fl) ;;
      ipLoop env fl limiter rest
        (ipResults ++ [{| IP := ip; ActualLLC := fst r; Error := snd r |}])%list
  end.

(** The task started for one domain; what it sends on [results]. *)
Definition domainTask (env : Env) (fl : Flags) (limiter : option Limiter)
    (dc : DomainConfig) : M DomainResult :=
  tr <- history ;;
  emit (EvLookupIP (Name dc)) ;;;
  match lookupIP env tr (timeout fl) (Name dc) with
  | (_, Some err) =>
      ret {| Domain := Name dc;
             Expected := ExpectedLlcs dc;
             IPResults := [];
             IsPolluted := true;
             Summary := "DNS 解析失败: " +:+ errorText err |}
  | (ips, None) =>
      if (length ips =? 0)%nat then
        ret {| Domain := Name dc;
               Expected := ExpectedLlcs dc;
               IPResults := [];
               IsPolluted := true;
               Summary := "没有找到 IPv4 地址" |}
      else
        ipResults <- ipLoop env fl limiter ips [] ;;
        ret (Aggregator.aggregateDomainResult (Name dc) (ExpectedLlcs dc) ipResults (strict fl))
  end.

(** The tasks of all domains and the collection of what they send.  The
    tasks are taken one after the other, in the order of the configuration:
    one of the schedules the semaphore allows. *)
Fixpoint runTasks (env : Env) (fl : Flags) (limiter : option Limiter)
    (domains : list DomainConfig) : M (list DomainResult) :=
  match domains with
  | [] => ret []
  | dc :: rest =>
      res <- domainTask env fl limiter dc ;;
      more <- runTasks env fl limiter rest ;;
      ret (res :: more)
  end.

Definition run (env : Env) (fl : Flags) (domains : list DomainConfig) : M (list DomainResult) :=
  runTasks env fl (newLimiter fl) domains.

End Orchestrator.

(** ** The statistics of [buildReport] *)

Module Report.

(** [float64]: IEEE 754 binary64, every operation rounded to nearest even. *)
Definition float64_of_int (n : Z) : spec_float := binary_normalize 53 1024 n 0 false.
Definition fdiv (x y : spec_float) : spec_float := SFdiv 53 1024 x y.
Definition fmul (x y : spec_float) : spec_float := SFmul 53 1024 x y.

Definition Normal : string := "正常".
Definition Mild : string := "轻度污染".
Definition Moderate : string := "中度污染".
Definition Severe : string := "重度污染".

Definition pollutionLevel (rate : spec_float) : string :=
  if SFltb rate (float64_of_int 20) then Normal
  else if SFltb rate (float64_of_int 40) then Mild
  else if SFltb rate (float64_of_int 60) then Moderate
  else Severe.

(** [for _, r := range results { if r.IsPolluted { polluted++ } }] *)
Fixpoint countPolluted (results : list DomainResult) (polluted : Z) : Z :=
  match results with
  | [] => polluted
  | r :: rest => countPolluted rest (if IsPolluted r then polluted + 1 else polluted)
  end.

Record RunSummary : Type := mkRunSummary {
  total : Z;
  pollutedCount : Z;
  pollutionRate : spec_float;
  level : string
}.

(** The head of [buildReport]: the four numbers it prints. *)
Definition buildReport (results : list DomainResult) : RunSummary :=
  let total := Z.of_nat (length results) in
  let polluted := countPolluted results 0 in
  let rate :=
    if 0 <? total then
      fmul (fdiv (float64_of_int polluted) (float64_of_int total)) (float64_of_int 100)
    else S754_zero false in
  {| total := total;
     pollutedCount := polluted;
     pollutionRate := rate;
     level := pollutionLevel rate |}.

End Report.

(** ** The vocabulary of the specification *)

Module Spec.

(** "The label starts with the string": an exact comparison of bytes. *)
Definition startsWith (label pre : string) : Prop :=
  exists rest, label = pre +:+ rest.

(** The per-IP match rule, in the words of the specification. *)
Definition matchesRule (expected : list string) (res : IPCheckResult) : Prop :=
  Error res = None /\ exists exp, exp ∈ expected /\ startsWith (ActualLLC res) exp.

(** What one iteration of the aggregator's loop records for a result. *)
Definition ipMatch (expected : list string) (res : IPCheckResult) : bool :=
  match Error res with
  | Some _ => false
  | None => Aggregator.matchExpected (ActualLLC res) expected
  end.

(** The byte [c] occurs in [s]. *)
Fixpoint hasByte (c : ascii) (s : string) : bool :=
  match s with
  | EmptyString => false
  | String a s' => Ascii.eqb c a || hasByte c s'
  end.

(** The text carries one of the two markers [isRetryable] looks for. *)
Definition hasMarker (s : string) : bool :=
  Contains s "timeout" || Contains s "EOF".

(** "Exactly one of label and failure is set". *)
Definition exactlyOne (llc : string) (err : option error) : Prop :=
  (err = None /\ llc <> "") \/ (is_Some err /\ llc = "").

Definition okResult (res : IPCheckResult) : Prop :=
  exactlyOne (ActualLLC res) (Error res).

(** The calls of [k] attempts in a row on one endpoint, the first of them
    numbered [attempt]: a request, and between two requests the sleep that
    the backoff gives for the attempt that failed. *)
Fixpoint attemptsTrace (url : string) (attempt : Z) (k : nat) : list event :=
  match k with
  | O => []
  | S O => [EvGet url]
  | S k' =>
      EvGet url :: EvSleep (Lookup.backoffDuration attempt)
        :: attemptsTrace url (attempt + 1) k'
  end.

(** The calls of a lookup that makes [ks !! j] attempts on the [j]-th
    endpoint, every endpoint starting again at attempt 0. *)
Fixpoint endpointsTrace (ip : string) (apiList : list string) (ks : list nat)
    : list event :=
  match apiList, ks with
  | baseURL :: apiList', k :: ks' =>
      (attemptsTrace (baseURL +:+ ip) 0 k ++ endpointsTrace ip apiList' ks')%list
  | _, _ => []
  end.

(** How the loop over the attempts on one endpoint was left, seen from the
    outside: with a non-empty label, or with the failure of the last
    request made (with [lastErr] untouched if no attempt was due). *)
Definition exitOk (env : Env) (ip baseURL : string) (timeout : Z)
    (lastErr : option error) (n : nat) (r : Lookup.loopExit * list event) : Prop :=
  match fst r with
  | Lookup.Returned llc => llc <> ""
  | Lookup.Broke e' =>
      (n = 0%nat /\ e' = lastErr) \/
      (exists tr0 e, (0 < n)%nat /\ e' = Some e
         /\ snd r = (tr0 ++ [EvGet (baseURL +:+ ip)])%list
         /\ snd (fst (Lookup.queryLLCFromAPI env ip baseURL timeout tr0)) = Some e)
  end.

(** The number of attempts made on one endpoint: at most [maxRetries + 1],
    and at least one when [maxRetries] is not negative. *)
Definition attemptsBound (maxRetries : Z) (k : nat) : Prop :=
  (k <= Z.to_nat (maxRetries + 1))%nat /\
  ((0 < Z.to_nat (maxRetries + 1))%nat -> (0 < k)%nat).

Definition allFailed : string := "所有 API 尝试均失败: ".

(** What a lookup started with history [tr] returns: a non-empty label, or
    an empty label and the all-endpoints error, which wraps the failure of
    the last request made (or [lastErr] when no request was made). *)
Definition fetchOk (env : Env) (ip : string) (timeout maxRetries : Z)
    (apiList : list string) (lastErr : option error) (tr : list event)
    (r : (string * option error) * list event) : Prop :=
  match fst r with
  | (llc, None) => llc <> ""
  | (llc, Some err) =>
      llc = "" /\
      (((apiList = [] \/ Z.to_nat (maxRetries + 1) = 0%nat)
          /\ err = errorfW allFailed lastErr /\ snd r = tr)
       \/ (exists baseURL tr0 e,
             last apiList = Some baseURL
             /\ snd r = (tr0 ++ [EvGet (baseURL +:+ ip)])%list
             /\ snd (fst (Lookup.queryLLCFromAPI env ip baseURL timeout tr0)) = Some e
             /\ err = errorfW allFailed (Some e)))
  end.

(** The calls of one lookup of [ip]: the attempts on the endpoints in
    order.  No token is taken among them, and if there is any call the
    first one is the request to the first endpoint. *)
Definition lookupSegment (apiList : list string) (maxRetries : Z) (ip : string)
    (seg : list event) : Prop :=
  (exists ks, (length ks <= length apiList)%nat
     /\ Forall (attemptsBound maxRetries) ks
     /\ seg = endpointsTrace ip apiList ks)
  /\ Forall (fun ev => ev <> EvWait) seg
  /\ (seg = [] \/ exists baseURL rest,
        head apiList = Some baseURL /\ seg = EvGet (baseURL +:+ ip) :: rest).

(** The calls made by [waitLimiter]. *)
Definition waitTrace (limiter : option Orchestrator.Limiter) : list event :=
  match limiter with Some _ => [EvWait] | None => [] end.

(** The durations slept, in order. *)
Fixpoint sleeps (tr : list event) : list Z :=
  match tr with
  | [] => []
  | EvSleep d :: tr' => d :: sleeps tr'
  | _ :: tr' => sleeps tr'
  end.

(** "The backoff exponent does not restart from zero": after the first
    sleep of a lookup, no later sleep has the duration of attempt 0. *)
Definition backoffNotReset (tr : list event) : Prop :=
  forall j d, (0 < j)%nat -> sleeps tr !! j = Some d -> d <> 2 ^ 0 * Second.


End Spec.

(** ** Concrete environments *)

Module Scenario.

Definition dq : string := String (ascii_of_nat 34) EmptyString.

(** The text of a [*url.Error]: [Op "URL": Err]. *)
Definition urlError (op url inner : string) : error :=
  ErrExternal (op +:+ " " +:+ dq +:+ url +:+ dq +:+ ": " +:+ inner).

Fixpoint getCount (tr : list event) : nat :=
  match tr with
  | [] => 0
  | EvGet _ :: tr' => S (getCount tr')
  | _ :: tr' => getCount tr'
  end.

Definition api : string := "https://uapis.cn/api/v1/network/ipinfo?ip=".
Definition backup : string := "https://backup.example/ipinfo?ip=".
Definition ip1 : string := "54.240.196.165".
Definition tenSeconds : Z := 10 * Second.

Definition okBody : string :=
  "{" +:+ dq +:+ "llc" +:+ dq +:+ ":" +:+ dq +:+ "AMAZON-02" +:+ dq +:+ "}".

Definition decode (body : string) : error + IPInfoRaw :=
  if String.eqb body okBody then inr {[ "llc" := JString "AMAZON-02" ]}
  else inl (ErrExternal "unexpected end of JSON input").

Definition resolveOne (_ : list event) (_ : Z) (_ : string) : list string * option error :=
  ([ip1], None).

Definition dialTimeout (url : string) : error :=
  urlError "Get" url "dial tcp 54.240.196.165:443: i/o timeout".


(** The ownership service times out twice, then answers. *)
Definition flaky : Env :=
  {| lookupIP := resolveOne;
     httpGet := fun tr _ url =>
       if (getCount tr <? 2)%nat then inl (dialTimeout url)
       else inr {| StatusCode := 200; Body := inr okBody |};
     jsonUnmarshal := decode;
     fmtMap := fun _ => "map[]" |}.

(** Every request times out. *)
Definition down : Env :=
  {| lookupIP := resolveOne;
     httpGet := fun _ _ url => inl (dialTimeout url);
     jsonUnmarshal := decode;
     fmtMap := fun _ => "map[]" |}.


(** The first endpoint answers 500, the second one answers. *)
Definition firstEndpointBroken : Env :=
  {| lookupIP := resolveOne;
     httpGet := fun _ _ url =>
       if String.prefix api url
       then inr {| StatusCode := 500; Body := inr "" |}
       else inr {| StatusCode := 200; Body := inr okBody |};
     jsonUnmarshal := decode;
     fmtMap := fun _ => "map[]" |}.


Definition positiveTwo : spec_float := S754_finite false 4503599627370496 (-51).

Definition flags (apis : list string) (retries : Z) : Orchestrator.Flags :=
  {| Orchestrator.apiList := apis;
     Orchestrator.strict := false;
     Orchestrator.timeout := tenSeconds;
     Orchestrator.rps := positiveTwo;
     Orchestrator.maxRetries := retries |}.

End Scenario.

(** ** The rest of [main] and of [buildReport] *)

Module Cli.

(** [strings.Split(s, ",")]: the fields between the commas, one more than
    there are commas. *)
Fixpoint splitComma (s : string) : list string :=
  match s with
  | EmptyString => [""]
  | String c s' =>
      if Ascii.eqb c "," then "" :: splitComma s'
      else
        match splitComma s' with
        | field :: fields => String c field :: fields
        | [] => [String c ""]
        end
  end.

(** Step 3 of [main]: the value of [-api] is split at the commas and every
    field is trimmed.  [TrimSpace] is [strings.TrimSpace]. *)
Definition parseAPIList (TrimSpace : string -> string) (apiURL : string) : list string :=
  map TrimSpace (splitComma apiURL).

(** [strings.Join(fields, ",")] and the number of commas of a string. *)
Fixpoint joinComma (fields : list string) : string :=
  match fields with
  | [] => ""
  | [field] => field
  | field :: rest => field +:+ "," +:+ joinComma rest
  end.

Fixpoint commas (s : string) : nat :=
  match s with
  | EmptyString => 0
  | String c s' => if Ascii.eqb c "," then S (commas s') else commas s'
  end.

End Cli.

Module ReportText.

Definition nl : string := String (ascii_of_nat 10) EmptyString.

(** [%v] of a [bool] and of a [[]string]. *)
Definition fmtBool (b : bool) : string := if b then "true" else "false".

Fixpoint joinSpace (l : list string) : string :=
  match l with
  | [] => ""
  | [s] => s
  | s :: rest => s +:+ " " +:+ joinSpace rest
  end.

Definition fmtStrings (l : list string) : string := "[" +:+ joinSpace l +:+ "]".

(** [status := "正常"; if !matched { status = "可能被污染" }] *)
Definition statusOf (matched : bool) : string :=
  if matched then "正常" else "可能被污染".

(** The line written for one IP result of a domain result. *)
Definition ipLine (expected : list string) (ipRes : IPCheckResult) : string :=
  match Error ipRes with
  | Some err => "  IP " +:+ IP ipRes +:+ ": 错误 - " +:+ errorText err +:+ nl
  | None =>
      let matched := Aggregator.matchExpected (ActualLLC ipRes) expected in
      "  IP " +:+ IP ipRes +:+ ": LLC=" +:+ ActualLLC ipRes +:+ " (期望: "
        +:+ fmtStrings expected +:+ ") - " +:+ statusOf matched +:+ nl
  end.

Fixpoint ipLines (expected : list string) (ipResults : list IPCheckResult) : string :=
  match ipResults with
  | [] => ""
  | ipRes :: rest => ipLine expected ipRes +:+ ipLines expected rest
  end.

(** What the second loop of [buildReport] writes for one domain result. *)
Definition domainBlock (res : DomainResult) : string :=
  "域名: " +:+ Domain res +:+ nl
  +:+ "  汇总: " +:+ Summary res +:+ " (污染: " +:+ fmtBool (IsPolluted res) +:+ ")" +:+ nl
  +:+ ipLines (Expected res) (IPResults res)
  +:+ nl.

Fixpoint details (results : list DomainResult) : string :=
  match results with
  | [] => ""
  | res :: rest => domainBlock res +:+ details rest
  end.

(** The text [buildReport] returns.  [now] is the formatted time of the
    call and [fmt2f] the [%.2f] rendering of a [float64]. *)
Definition reportText (now : string) (fmt2f : spec_float -> string)
    (results : list DomainResult) : string :=
  let s := Report.buildReport results in
  "DNS 污染检测报告" +:+ nl
  +:+ "生成时间: " +:+ now +:+ nl
  +:+ "=================" +:+ nl
  +:+ "检测域名总数: " +:+ Lookup.itoa (Report.total s) +:+ nl
  +:+ "被污染域名数: " +:+ Lookup.itoa (Report.pollutedCount s) +:+ nl
  +:+ "污染率: " +:+ fmt2f (Report.pollutionRate s) +:+ "%" +:+ nl
  +:+ "污染程度: " +:+ Report.level s +:+ nl
  +:+ "=================" +:+ nl +:+ nl
  +:+ "详细结果:" +:+ nl
  +:+ details results.

End ReportText.

(** ** Measures of a history of calls *)

Module Measure.

Fixpoint requests (tr : list event) : nat :=
  match tr with
  | [] => 0
  | EvGet _ :: tr' => S (requests tr')
  | _ :: tr' => requests tr'
  end.

Fixpoint waits (tr : list event) : nat :=
  match tr with
  | [] => 0
  | EvWait :: tr' => S (waits tr')
  | _ :: tr' => waits tr'
  end.

(** The names handed to the name service, in order. *)
Fixpoint resolved (tr : list event) : list string :=
  match tr with
  | [] => []
  | EvLookupIP name :: tr' => name :: resolved tr'
  | _ :: tr' => resolved tr'
  end.

(** The sum of the durations slept. *)
Fixpoint totalSleep (tr : list event) : Z :=
  match tr with
  | [] => 0
  | EvSleep d :: tr' => d + totalSleep tr'
  | _ :: tr' => totalSleep tr'
  end.

(** The number of IP results in a list of domain results. *)
Fixpoint ipResultCount (results : list DomainResult) : nat :=
  match results with
  | [] => 0
  | res :: rest => length (IPResults res) + ipResultCount rest
  end.

(** A value of the decoded document that [extractLLC] accepts. *)
Definition nonEmptyString (v : option jvalue) : Prop :=
  exists s, v = Some (JString s) /\ s <> "".

(** An ownership service that answers every request with the same
    status and an empty body. *)
Definition alwaysStatus (code : Z) : Env :=
  {| lookupIP := Scenario.resolveOne;
     httpGet := fun _ _ _ => inr {| StatusCode := code; Body := inr "" |};
     jsonUnmarshal := Scenario.decode;
     fmtMap := fun _ => "map[]" |}.

End Measure.

(** * Properties *)

(** ** Strings *)

Lemma prefix_startsWith (pre s : string) :
  String.prefix pre s = true <-> Spec.startsWith s pre.
Proof.
  unfold Spec.startsWith. revert s.
  induction pre as [|a pre IH]; intros s.
  - split; [intros _; exists s; reflexivity | intros _; now destruct s].
  - destruct s as [|b s]; simpl.
    + split; [discriminate | intros [rest H]; discriminate].
    + destruct (ascii_dec a b) as [->|Hne].
      * rewrite IH. split; intros [rest H]; exists rest.
        -- simpl. now rewrite H.
        -- simpl in H. now injection H.
      * split; [discriminate|]. intros [rest H]. simpl in H.
        injection H as Hab _. congruence.
Qed.

Lemma HasPrefix_spec (s pre : string) :
  HasPrefix s pre = true <-> Spec.startsWith s pre.
Proof. apply prefix_startsWith. Qed.

Lemma Contains_app_skip (pre s : string) (c : ascii) (sub : string) :
  Spec.hasByte c pre = false ->
  Contains (pre +:+ s) (String c sub) = Contains s (String c sub).
Proof.
  induction pre as [|a pre IH]; simpl; [reflexivity|].
  intros H. apply orb_false_elim in H as [Hca Hpre].
  rewrite (IH Hpre). apply Ascii.eqb_neq in Hca.
  destruct (ascii_dec c a) as [E|_]; [contradiction | reflexivity].
Qed.


(** ** The aggregator *)

Module AggregatorFacts.
Import Aggregator Spec.

Lemma matchExpected_spec (label : string) (expected : list string) :
  matchExpected label expected = true <->
  exists exp, exp ∈ expected /\ Spec.startsWith label exp.
Proof.
  induction expected as [|e expected IH]; simpl.
  - split; [discriminate | intros (exp & Hin & _); inversion Hin].
  - destruct (HasPrefix label e) eqn:He.
    + split; [intros _ | reflexivity].
      exists e. split; [left | now apply HasPrefix_spec].
    + rewrite IH. split; intros (exp & Hin & Hst).
      * exists exp. split; [now right | exact Hst].
      * exists exp. split; [|exact Hst].
        inversion Hin; subst; [|assumption].
        apply HasPrefix_spec in Hst. congruence.
Qed.

Lemma ipMatch_spec (expected : list string) (res : IPCheckResult) :
  ipMatch expected res = true <-> Spec.matchesRule expected res.
Proof.
  unfold ipMatch, Spec.matchesRule. destruct (Error res) as [e|].
  - split; [discriminate | intros [H _]; discriminate].
  - rewrite matchExpected_spec. tauto.
Qed.

Lemma loopBody_ipMatch expected i res st :
  loopBody expected i res st =
  {| ipMatches := <[i := ipMatch expected res]> (ipMatches st);
     anySuccess := ipMatch expected res || anySuccess st;
     allMatch := ipMatch expected res && allMatch st |}.
Proof.
  unfold loopBody, ipMatch. destruct (Error res); [reflexivity|].
  now destruct (matchExpected _ _).
Qed.

Lemma loop_anySuccess expected rs : forall i st,
  anySuccess (loop expected i rs st) = anySuccess st || existsb (ipMatch expected) rs.
Proof.
  induction rs as [|res rs IH]; intros i st; simpl.
  - now rewrite orb_false_r.
  - rewrite IH, loopBody_ipMatch. simpl.
    destruct (ipMatch expected res), (anySuccess st); reflexivity.
Qed.

Lemma loop_allMatch expected rs : forall i st,
  allMatch (loop expected i rs st) = allMatch st && forallb (ipMatch expected) rs.
Proof.
  induction rs as [|res rs IH]; intros i st; simpl.
  - now rewrite andb_true_r.
  - rewrite IH, loopBody_ipMatch. simpl.
    destruct (ipMatch expected res), (allMatch st); reflexivity.
Qed.

(** The slots below [i] are settled; the loop fills the slots from [i] on. *)
Lemma loop_ipMatches expected rs : forall i st,
  length (ipMatches st) = (i + length rs)%nat ->
  ipMatches (loop expected i rs st) =
  (take i (ipMatches st) ++ map (ipMatch expected) rs)%list.
Proof.
  induction rs as [|res rs IH]; intros i st Hlen; simpl in *.
  - rewrite app_nil_r, firstn_all2; [reflexivity | lia].
  - rewrite IH; rewrite loopBody_ipMatch; simpl.
    + rewrite (take_S_r _ _ (ipMatch expected res)).
      * rewrite take_insert_ge by lia. now rewrite <- app_assoc.
      * apply list_lookup_insert_eq. lia.
    + rewrite length_insert. lia.
Qed.

Lemma runLoop_ipMatches expected ipResults :
  ipMatches (runLoop expected ipResults) = map (ipMatch expected) ipResults.
Proof.
  unfold runLoop. rewrite loop_ipMatches; [reflexivity|].
  simpl. now rewrite length_replicate.
Qed.

Lemma runLoop_anySuccess expected ipResults :
  anySuccess (runLoop expected ipResults) = existsb (ipMatch expected) ipResults.
Proof. unfold runLoop. now rewrite loop_anySuccess. Qed.

Lemma runLoop_allMatch expected ipResults :
  allMatch (runLoop expected ipResults) = forallb (ipMatch expected) ipResults.
Proof. unfold runLoop. now rewrite loop_allMatch. Qed.

End AggregatorFacts.

Module AggregatorSpec.
Import Aggregator Spec AggregatorFacts.

(** C1. The verdict of [aggregateDomainResult].  Lenient mode: the domain is
    polluted iff no IP result matches, and clean iff at least one matches.
    Strict mode: the domain is clean iff every IP result matches, and it is
    polluted as soon as one result does not match or carries a failure. *)
Theorem C1_verdict_by_mode (domain : string) (expected : list string)
    (ipResults : list IPCheckResult) :
  (IsPolluted (aggregateDomainResult domain expected ipResults false) = true <->
     forall res, res ∈ ipResults -> ~ matchesRule expected res)
  /\ (IsPolluted (aggregateDomainResult domain expected ipResults false) = false <->
     exists res, res ∈ ipResults /\ matchesRule expected res)
  /\ (IsPolluted (aggregateDomainResult domain expected ipResults true) = false <->
     forall res, res ∈ ipResults -> matchesRule expected res)
  /\ ((exists res, res ∈ ipResults /\
         (~ matchesRule expected res \/ is_Some (Error res))) ->
      IsPolluted (aggregateDomainResult domain expected ipResults true) = true).
Proof.
  unfold aggregateDomainResult. cbn [IsPolluted].
  rewrite runLoop_anySuccess, runLoop_allMatch.
  assert (Hex : existsb (ipMatch expected) ipResults = true <->
                exists res, res ∈ ipResults /\ matchesRule expected res).
  { rewrite existsb_exists. split; intros (res & Hin & Hm); exists res.
    - split; [now apply list_elem_of_In | now apply ipMatch_spec].
    - split; [now apply list_elem_of_In | now apply ipMatch_spec]. }
  assert (Hall : forallb (ipMatch expected) ipResults = true <->
                 forall res, res ∈ ipResults -> matchesRule expected res).
  { rewrite forallb_forall. split; intros H res Hin.
    - apply ipMatch_spec, H. now apply list_elem_of_In.
    - apply ipMatch_spec, H. now apply list_elem_of_In. }
  split; [split | split; [split | split; [split|]]].
  - intros Hp res Hin Hm. apply negb_true_iff in Hp.
    assert (existsb (ipMatch expected) ipResults = true) by (apply Hex; eauto).
    congruence.
  - intros Hno. apply negb_true_iff.
    destruct (existsb (ipMatch expected) ipResults) eqn:E; [|reflexivity].
    destruct (proj1 Hex eq_refl) as (res & Hin & Hm). now destruct (Hno res Hin).
  - intros Hp. apply negb_false_iff in Hp. now apply Hex.
  - intros H. apply negb_false_iff. now apply Hex.
  - intros Hp. apply negb_false_iff in Hp. now apply Hall.
  - intros H. apply negb_false_iff. now apply Hall.
  - intros (res & Hin & Hbad). apply negb_true_iff.
    destruct (forallb (ipMatch expected) ipResults) eqn:E; [|reflexivity].
    pose proof (proj1 Hall eq_refl res Hin) as Hm.
    destruct Hbad as [Hn | [e He]]; [now destruct Hn|].
    destruct Hm as [Hnone _]. congruence.
Qed.

(** C2. The per-IP match rule: the flag recorded for the [i]-th result is
    [true] iff the lookup succeeded and the label starts, byte for byte,
    with one of the expected prefixes; a result with a failure is recorded
    as not matching.  The comparison is exact: [AMAZON] matches
    [AMAZON-02], [AMAZON-] does not match [AMAZONX], and case matters. *)
Theorem C2_per_ip_match_rule (expected : list string)
    (ipResults : list IPCheckResult) (i : nat) (res : IPCheckResult) :
  expected <> [] ->
  ipResults !! i = Some res ->
  (ipMatches (runLoop expected ipResults) !! i = Some true <-> matchesRule expected res)
  /\ (ipMatches (runLoop expected ipResults) !! i = Some false <-> ~ matchesRule expected res)
  /\ (is_Some (Error res) -> ipMatches (runLoop expected ipResults) !! i = Some false)
  /\ matchExpected "AMAZON-02" ["AMAZON"] = true
  /\ matchExpected "AMAZONX" ["AMAZON-"] = false
  /\ matchExpected "amazon-02" ["AMAZON"] = false.
Proof.
  intros _ Hi.
  rewrite runLoop_ipMatches, list_lookup_fmap, Hi. simpl.
  pose proof (ipMatch_spec expected res) as Hspec.
  split; [|split; [|split; [|repeat split]]].
  - split; intros H.
    + apply Hspec. congruence.
    + f_equal. now apply Hspec.
  - split.
    + intros H Hm. apply Hspec in Hm. congruence.
    + intros Hn. f_equal. destruct (ipMatch expected res); [|reflexivity].
      destruct Hn. now apply Hspec.
  - intros [e He]. unfold ipMatch. now rewrite He.
Qed.

Lemma C2_per_ip_match_rule_witness :
  let res := {| IP := "54.240.196.165"; ActualLLC := "AMAZON-02"; Error := None |} in
  ipMatches (runLoop ["AMAZON"] [res]) !! 0%nat = Some true <-> matchesRule ["AMAZON"] res.
Proof.
  intros res.
  apply (C2_per_ip_match_rule ["AMAZON"] [res] 0 res); [discriminate | reflexivity].
Defined.

(** C10. On an empty sequence of IP results the two modes disagree: strict
    mode reports the domain clean, lenient mode reports it polluted. *)
Theorem C10_empty_results_modes_disagree (domain : string) (expected : list string) :
  IsPolluted (aggregateDomainResult domain expected [] true) = false
  /\ IsPolluted (aggregateDomainResult domain expected [] false) = true.
Proof. split; reflexivity. Qed.

End AggregatorSpec.

(** ** The ownership lookup client *)

Module LookupFacts.
Import Lookup Spec.

Lemma probe_nonempty (data : IPInfoRaw) (keys : list string) (str : string) :
  probe data keys = Some str -> str <> "".
Proof.
  induction keys as [|key keys IH]; simpl; [discriminate|].
  destruct (data !! key) as [[| | |s| |]|]; auto.
  destruct (String.eqb s "") eqn:E; simpl; auto.
  intros [= <-]. now apply String.eqb_neq.
Qed.

Lemma extractLLC_exactlyOne (env : Env) (data : IPInfoRaw) :
  exactlyOne (fst (extractLLC env data)) (snd (extractLLC env data)).
Proof.
  unfold extractLLC. destruct (probe data possibleKeys) as [str|] eqn:E; simpl.
  - left. split; [reflexivity | now apply probe_nonempty in E].
  - right. split; [eexists; reflexivity | reflexivity].
Qed.

(** One call of [queryLLCFromAPI] issues exactly one request. *)
Lemma queryLLCFromAPI_trace env ip baseURL timeout tr :
  snd (queryLLCFromAPI env ip baseURL timeout tr) = (tr ++ [EvGet (baseURL +:+ ip)])%list.
Proof.
  unfold queryLLCFromAPI, bind, history, emit, ret. simpl.
  destruct (httpGet env tr timeout _) as [err|resp]; [reflexivity|].
  destruct (negb _); [reflexivity|].
  destruct (Body resp) as [err|body]; [reflexivity|].
  destruct (jsonUnmarshal env body) as [err|raw]; [reflexivity|].
  destruct (extractLLC env raw) as [llc [e|]]; reflexivity.
Qed.

Lemma queryLLCFromAPI_exactlyOne env ip baseURL timeout tr :
  exactlyOne (fst (fst (queryLLCFromAPI env ip baseURL timeout tr)))
             (snd (fst (queryLLCFromAPI env ip baseURL timeout tr))).
Proof.
  unfold queryLLCFromAPI, bind, history, emit, ret. simpl.
  assert (Hfail : forall e, exactlyOne "" (Some e)).
  { intros e. right. split; [eexists; reflexivity | reflexivity]. }
  destruct (httpGet env tr timeout _) as [err|resp]; [apply Hfail|].
  destruct (negb _); [apply Hfail|].
  destruct (Body resp) as [err|body]; [apply Hfail|].
  destruct (jsonUnmarshal env body) as [err|raw]; [apply Hfail|].
  pose proof (extractLLC_exactlyOne env raw) as H.
  destruct (extractLLC env raw) as [llc [e|]]; simpl in *; [apply Hfail | exact H].
Qed.

Lemma attemptsTrace_SS url a k :
  attemptsTrace url a (S (S k)) =
  EvGet url :: EvSleep (backoffDuration a) :: attemptsTrace url (a + 1) (S k).
Proof. reflexivity. Qed.

(** One turn of the loop over the attempts. *)
Lemma retryLoop_cons env ip baseURL timeout maxRetries attempt rest lastErr tr :
  retryLoop env ip baseURL timeout maxRetries (attempt :: rest) lastErr tr =
  match queryLLCFromAPI env ip baseURL timeout tr with
  | ((llc, None), tr1) => (Returned llc, tr1)
  | ((_, Some e), tr1) =>
      if isRetryable (Some e) && (attempt <? maxRetries) then
        retryLoop env ip baseURL timeout maxRetries rest (Some e)
          (tr1 ++ [EvSleep (backoffDuration attempt)])%list
      else (Broke (Some e), tr1)
  end.
Proof.
  cbn [retryLoop]. unfold bind at 1.
  destruct (queryLLCFromAPI env ip baseURL timeout tr) as [[llc [e|]] tr1]; [|reflexivity].
  destruct (isRetryable (Some e) && (attempt <? maxRetries)); reflexivity.
Qed.

(** The attempts on one endpoint: at most as many requests as there are
    attempt numbers left, at least one if there is any, separated by the
    backoff sleeps. *)
Lemma retryLoop_shape env ip baseURL timeout maxRetries :
  forall (n : nat) (a : Z) lastErr tr,
    (n = 0%nat \/ a + Z.of_nat n = maxRetries + 1) ->
    let r := retryLoop env ip baseURL timeout maxRetries (seqZ a (Z.of_nat n)) lastErr tr in
    exists k, (k <= n)%nat /\ ((0 < n)%nat -> (0 < k)%nat)
      /\ snd r = (tr ++ attemptsTrace (baseURL +:+ ip) a k)%list
      /\ exitOk env ip baseURL timeout lastErr n r.
Proof.
  induction n as [|n IH]; intros a lastErr tr Hn r.
  - exists 0%nat. subst r. simpl. rewrite app_nil_r.
    repeat split; [lia | lia |]. left. split; reflexivity.
  - destruct Hn as [Hn | Hn]; [discriminate|].
    subst r. rewrite seqZ_cons by lia. rewrite retryLoop_cons.
    pose proof (queryLLCFromAPI_trace env ip baseURL timeout tr) as Htr.
    pose proof (queryLLCFromAPI_exactlyOne env ip baseURL timeout tr) as Hone.
    destruct (queryLLCFromAPI env ip baseURL timeout tr) as [[llc err] tr1] eqn:Hq.
    simpl in Htr, Hone. subst tr1.
    destruct err as [e|].
    + destruct (isRetryable (Some e) && (a <? maxRetries)) eqn:Hretry.
      * apply andb_prop in Hretry as [_ Hlt]. apply Z.ltb_lt in Hlt.
        replace (Z.pred (Z.of_nat (S n))) with (Z.of_nat n) by lia.
        specialize (IH (Z.succ a) (Some e)
                      ((tr ++ [EvGet (baseURL +:+ ip)]) ++ [EvSleep (backoffDuration a)])%list).
        destruct IH as (k & Hk & Hpos & Htrace & Hexit); [right; lia|].
        assert (0 < n)%nat by lia.
        destruct k as [|k]; [specialize (Hpos ltac:(lia)); lia|].
        exists (S (S k)). split; [lia|]. split; [lia|]. split.
        -- rewrite Htrace, attemptsTrace_SS, <- !app_assoc. simpl.
           now replace (a + 1) with (Z.succ a) by lia.
        -- unfold exitOk in *.
           destruct (fst (retryLoop _ _ _ _ _ _ _ _)) as [l|e'] eqn:Er; [exact Hexit|].
           destruct Hexit as [[Hz _] | (tr0 & e0 & _ & H')]; [lia|].
           right. exists tr0, e0. split; [lia | exact H'].
      * exists 1%nat. simpl. split; [lia|]. split; [lia|]. split; [reflexivity|].
        unfold exitOk. simpl. right. exists tr, e. rewrite Hq.
        split; [lia | auto].
    + exists 1%nat. simpl. split; [lia|]. split; [lia|]. split; [reflexivity|].
      unfold exitOk. simpl. destruct Hone as [[_ Hne] | [[x Hx] _]]; [exact Hne | discriminate].
Qed.

Lemma endpointsTrace_nil_r ip apiList : endpointsTrace ip apiList [] = [].
Proof. now destruct apiList. Qed.

(** One turn of the loop over the endpoints. *)
Lemma endpointLoop_cons env ip timeout maxRetries baseURL rest lastErr tr :
  endpointLoop env ip timeout maxRetries (baseURL :: rest) lastErr tr =
  match retryLoop env ip baseURL timeout maxRetries (seqZ 0 (maxRetries + 1)) lastErr tr with
  | (Returned llc, tr1) => (llc, None, tr1)
  | (Broke lastErr', tr1) => endpointLoop env ip timeout maxRetries rest lastErr' tr1
  end.
Proof.
  cbn [endpointLoop]. unfold bind at 1.
  now destruct (retryLoop _ _ _ _ _ _ _ _) as [[llc|e] tr1].
Qed.

(** The whole lookup: the endpoints in order, each with its own attempts
    numbered from 0, up to the first success. *)
Lemma endpointLoop_shape env ip timeout maxRetries :
  forall apiList lastErr tr,
    let r := endpointLoop env ip timeout maxRetries apiList lastErr tr in
    exists ks, (length ks <= length apiList)%nat
      /\ Forall (attemptsBound maxRetries) ks
      /\ snd r = (tr ++ endpointsTrace ip apiList ks)%list
      /\ (is_Some (snd (fst r)) -> length ks = length apiList)
      /\ fetchOk env ip timeout maxRetries apiList lastErr tr r.
Proof.
  induction apiList as [|baseURL rest IH]; intros lastErr tr r.
  - exists []. subst r. simpl. rewrite app_nil_r.
    split; [lia|]. split; [constructor|]. split; [reflexivity|]. split; [reflexivity|].
    unfold fetchOk. simpl. split; [reflexivity|]. left. auto.
  - subst r. rewrite endpointLoop_cons.
    pose proof (retryLoop_shape env ip baseURL timeout maxRetries
                  (Z.to_nat (maxRetries + 1)) 0 lastErr tr) as Hloop.
    assert (Hseq : seqZ 0 (Z.of_nat (Z.to_nat (maxRetries + 1))) = seqZ 0 (maxRetries + 1)).
    { unfold seqZ. now rewrite Nat2Z.id. }
    rewrite Hseq in Hloop. cbv zeta in Hloop.
    destruct Hloop as (k & Hk & Hpos & Htrace & Hexit); [lia|].
    unfold exitOk in Hexit.
    destruct (retryLoop env ip baseURL timeout maxRetries _ lastErr tr) as [x tr1] eqn:Hr.
    simpl in Htrace, Hexit. subst tr1.
    assert (Hb : attemptsBound maxRetries k) by (split; assumption).
    destruct x as [llc | lastErr'].
    + exists [k]. simpl. rewrite endpointsTrace_nil_r, app_nil_r.
      split; [lia|]. split; [repeat constructor; assumption|]. 
      split; [reflexivity|].
      split; [intros [x Hx]; simpl in Hx; discriminate | exact Hexit].
    + specialize (IH lastErr' (tr ++ attemptsTrace (baseURL +:+ ip) 0 k)%list).
      cbv zeta in IH. destruct IH as (ks & Hlen & Hall & Htr & Hfull & Hok).
      exists (k :: ks). simpl. split; [lia|]. split; [constructor; assumption|].
      split; [rewrite Htr; now rewrite <- app_assoc|].
      split; [intros Hs; f_equal; auto|].
      unfold fetchOk in *.
      destruct (fst (endpointLoop env ip timeout maxRetries rest lastErr' _))
        as [llc [err|]] eqn:Ee; [|exact Hok].
      destruct Hok as [Hllc Hok]. split; [exact Hllc|].
      destruct Hexit as [[Hz ->] | (tr0 & e & HposN & -> & Htr0 & Hq)].
      * assert (k = 0%nat) by lia. subst k. simpl in *. rewrite app_nil_r in *.
        destruct Hok as [([Hnil | HN] & Herr & Hsnd) | (b & tr0 & e & Hlast & H1 & H2 & H3)].
        -- left. auto.
        -- left. auto.
        -- right. exists b, tr0, e. split; [|auto].
           destruct rest; [discriminate | exact Hlast].
      * right.
        destruct Hok as [([Hnil | HN] & Herr & Hsnd) | (b & tr1 & e1 & Hlast & H1 & H2 & H3)].
        -- subst rest. exists baseURL, tr0, e. simpl in *. auto.
        -- lia.
        -- exists b, tr1, e1. split; [|auto].
           destruct rest; [discriminate | exact Hlast].
Qed.

End LookupFacts.

Module OrchestratorFacts.
Import Lookup Orchestrator Spec LookupFacts.

Lemma attemptsTrace_no_wait url : forall k a,
  Forall (fun ev => ev <> EvWait) (attemptsTrace url a k).
Proof.
  induction k as [|[|k] IH]; intros a.
  - constructor.
  - repeat constructor. discriminate.
  - rewrite attemptsTrace_SS. repeat (constructor; [discriminate|]). apply IH.
Qed.

Lemma endpointsTrace_no_wait ip : forall apis ks,
  Forall (fun ev => ev <> EvWait) (endpointsTrace ip apis ks).
Proof.
  induction apis as [|b apis IH]; intros [|k ks]; simpl; try constructor.
  apply Forall_app. split; [apply attemptsTrace_no_wait | apply IH].
Qed.

Lemma attemptsTrace_head url a k :
  (0 < k)%nat -> exists rest, attemptsTrace url a k = EvGet url :: rest.
Proof. destruct k as [|[|k]]; [lia | eexists; reflexivity | eexists; reflexivity]. Qed.

Lemma endpointsTrace_zero ip maxRetries : forall apis ks,
  Z.to_nat (maxRetries + 1) = 0%nat -> Forall (attemptsBound maxRetries) ks ->
  endpointsTrace ip apis ks = [].
Proof.
  induction apis as [|b apis IH]; intros [|k ks] HN Hall; simpl; try reflexivity.
  inversion Hall as [|? ? [Hk _] Hks]; subst.
  assert (k = 0%nat) by lia. subst k. simpl. now apply IH.
Qed.

Lemma lookupSegment_intro apis maxRetries ip ks :
  (length ks <= length apis)%nat -> Forall (attemptsBound maxRetries) ks ->
  lookupSegment apis maxRetries ip (endpointsTrace ip apis ks).
Proof.
  intros Hlen Hall. split; [exists ks; auto|]. split; [apply endpointsTrace_no_wait|].
  destruct apis as [|b apis]; [left; reflexivity|].
  destruct ks as [|k ks]; [left; reflexivity|].
  destruct (Nat.eq_dec (Z.to_nat (maxRetries + 1)) 0%nat) as [HN|HN].
  - left. eapply endpointsTrace_zero; eauto.
  - right. inversion Hall as [|? ? [_ Hk] _]; subst.
    destruct (attemptsTrace_head (b +:+ ip) 0 k ltac:(apply Hk; lia)) as [rest Hrest].
    exists b. eexists. split; [reflexivity|]. simpl. rewrite Hrest. reflexivity.
Qed.

Lemma fetch_segment env ip apis timeout maxRetries tr :
  exists seg, lookupSegment apis maxRetries ip seg
    /\ snd (fetchLLCWithRetry env ip apis timeout maxRetries tr) = (tr ++ seg)%list.
Proof.
  destruct (endpointLoop_shape env ip timeout maxRetries apis None tr)
    as (ks & Hlen & Hall & Htr & _).
  exists (endpointsTrace ip apis ks). split; [now apply lookupSegment_intro | exact Htr].
Qed.

Lemma fetch_exactlyOne env ip apis timeout maxRetries tr :
  exactlyOne (fst (fst (fetchLLCWithRetry env ip apis timeout maxRetries tr)))
             (snd (fst (fetchLLCWithRetry env ip apis timeout maxRetries tr))).
Proof.
  destruct (endpointLoop_shape env ip timeout maxRetries apis None tr)
    as (_ & _ & _ & _ & _ & Hok).
  unfold fetchOk in Hok. fold (fetchLLCWithRetry env ip apis timeout maxRetries) in Hok.
  destruct (fst (fetchLLCWithRetry env ip apis timeout maxRetries tr)) as [llc [e|]];
    simpl.
  - right. split; [eexists; reflexivity | apply Hok].
  - left. auto.
Qed.

(** One turn of the loop over the addresses. *)
Lemma ipLoop_cons env fl limiter ip rest acc tr :
  ipLoop env fl limiter (ip :: rest) acc tr =
  let r := fetchLLCWithRetry env ip (apiList fl) (timeout fl) (maxRetries fl)
             (tr ++ waitTrace limiter)%list in
  ipLoop env fl limiter rest
    (acc ++ [{| IP := ip; ActualLLC := fst (fst r); Error := snd (fst r) |}])%list
    (snd r).
Proof.
  cbn [ipLoop]. unfold bind at 1. unfold waitLimiter, waitTrace.
  destruct limiter; unfold emit, ret; [|rewrite app_nil_r];
    unfold bind at 1; cbv zeta;
    now destruct (fetchLLCWithRetry _ _ _ _ _ _) as [[llc err] tr'].
Qed.

Lemma ipLoop_shape env fl limiter : forall ips acc tr,
  let r := ipLoop env fl limiter ips acc tr in
  exists segs new,
    Forall2 (lookupSegment (apiList fl) (maxRetries fl)) ips segs
    /\ snd r = (tr ++ concat (map (app (waitTrace limiter)) segs))%list
    /\ fst r = (acc ++ new)%list
    /\ map IP new = ips
    /\ Forall okResult new.
Proof.
  induction ips as [|ip ips IH]; intros acc tr r; subst r.
  - exists [], []. simpl. rewrite !app_nil_r. repeat split; constructor.
  - rewrite ipLoop_cons. cbv zeta.
    destruct (fetch_segment env ip (apiList fl) (timeout fl) (maxRetries fl)
                (tr ++ waitTrace limiter)%list) as (seg & Hseg & Htr).
    pose proof (fetch_exactlyOne env ip (apiList fl) (timeout fl) (maxRetries fl)
                  (tr ++ waitTrace limiter)%list) as Hone.
    set (f := fetchLLCWithRetry env ip (apiList fl) (timeout fl) (maxRetries fl)
                (tr ++ waitTrace limiter)%list) in *.
    specialize (IH (acc ++ [{| IP := ip; ActualLLC := fst (fst f); Error := snd (fst f) |}])%list
                  (snd f)).
    cbv zeta in IH. destruct IH as (segs & new & Hsegs & Hsnd & Hfst & Hips & Hok).
    exists (seg :: segs),
           ({| IP := ip; ActualLLC := fst (fst f); Error := snd (fst f) |} :: new).
    split; [constructor; assumption|]. split.
    { rewrite Hsnd, Htr. simpl. now rewrite <- !app_assoc. }
    split; [rewrite Hfst; now rewrite <- app_assoc|].
    split; [simpl; now rewrite Hips|].
    constructor; [exact Hone | exact Hok].
Qed.

End OrchestratorFacts.

Module LookupSpec.
Import Lookup Spec LookupFacts.

Lemma wrap64_small (z : Z) : - 2 ^ 63 <= z < 2 ^ 63 -> wrap64 z = z.
Proof. intros H. unfold wrap64. rewrite Z.mod_small; lia. Qed.

(** As long as the duration fits 64 bits the backoff is [2^attempt]
    seconds. *)
Lemma backoffDuration_pow2 (attempt : Z) :
  0 <= attempt <= 33 -> backoffDuration attempt = 2 ^ attempt * Second.
Proof.
  intros H. unfold backoffDuration.
  assert (Hp : 1 <= 2 ^ attempt <= 2 ^ 33).
  { split; [apply (Z.pow_le_mono_r 2 0 attempt); lia
           | apply Z.pow_le_mono_r; lia]. }
  rewrite Z.mod_small by (split; [lia|]; apply Z.le_lt_trans with 33; lia).
  rewrite Z.shiftl_1_l.
  change (2 ^ 33) with 8589934592 in Hp.
  rewrite (wrap64_small (2 ^ attempt)) by (change (2 ^ 63) with 9223372036854775808; lia).
  apply wrap64_small. unfold Second. change (2 ^ 63) with 9223372036854775808. lia.
Qed.

(** From attempt 34 on the product no longer fits: the duration wraps to a
    negative number, for which [time.Sleep] returns at once. *)
Lemma backoffDuration_34 : backoffDuration 34 = -1266874889709551616.
Proof. reflexivity. Qed.

Lemma attemptsBound_nonneg (maxRetries : Z) (k : nat) :
  0 <= maxRetries -> attemptsBound maxRetries k -> 1 <= Z.of_nat k <= maxRetries + 1.
Proof. unfold attemptsBound. intros H [H1 H2]. lia. Qed.



(** C6 as stated fails: with two endpoints, [maxRetries = 1] and a service
    that always times out, the sleep on the second endpoint is again the one
    of attempt 0. *)
Lemma C6_backoff_restarts_counterexample :
  let tr := snd (fetchLLCWithRetry Scenario.down Scenario.ip1
                   [Scenario.api; Scenario.backup] Scenario.tenSeconds 1 []) in
  tr = [EvGet (Scenario.api +:+ Scenario.ip1); EvSleep (2 ^ 0 * Second);
        EvGet (Scenario.api +:+ Scenario.ip1);
        EvGet (Scenario.backup +:+ Scenario.ip1); EvSleep (2 ^ 0 * Second);
        EvGet (Scenario.backup +:+ Scenario.ip1)]
  /\ ~ backoffNotReset tr.
Proof.
  split; [reflexivity|].
  intros H. apply (H 1%nat (2 ^ 0 * Second)); [lia | reflexivity | reflexivity].
Qed.

(** C6, amended.  The endpoints are tried in order, and the attempts on
    every endpoint are numbered from 0 again, so that the backoff restarts
    with it; a failure that is not retryable moves the lookup to the next
    endpoint at once.  When all endpoints have failed (the list of endpoints
    not being empty and [maxRetries >= 0]), the lookup returns the
    all-endpoints error, which wraps the failure of the last request made. *)
Theorem C6_endpoints_in_order_and_exhaustion (env : Env) (ip : string)
    (apiList : list string) (timeout maxRetries : Z) (tr : list event) :
  (exists ks, (length ks <= length apiList)%nat
     /\ Forall (attemptsBound maxRetries) ks
     /\ snd (fetchLLCWithRetry env ip apiList timeout maxRetries tr)
        = (tr ++ endpointsTrace ip apiList ks)%list
     /\ (is_Some (snd (fst (fetchLLCWithRetry env ip apiList timeout maxRetries tr))) ->
         length ks = length apiList))
  /\ (forall baseURL rest lastErr e,
        0 <= maxRetries ->
        snd (fst (queryLLCFromAPI env ip baseURL timeout tr)) = Some e ->
        isRetryable (Some e) = false ->
        endpointLoop env ip timeout maxRetries (baseURL :: rest) lastErr tr
        = endpointLoop env ip timeout maxRetries rest (Some e)
            (tr ++ [EvGet (baseURL +:+ ip)])%list)
  /\ (forall err,
        apiList <> [] -> 0 <= maxRetries ->
        snd (fst (fetchLLCWithRetry env ip apiList timeout maxRetries tr)) = Some err ->
        exists baseURL tr0 e,
          last apiList = Some baseURL
          /\ snd (fetchLLCWithRetry env ip apiList timeout maxRetries tr)
             = (tr0 ++ [EvGet (baseURL +:+ ip)])%list
          /\ snd (fst (queryLLCFromAPI env ip baseURL timeout tr0)) = Some e
          /\ err = ErrWrap (allFailed +:+ errorText e) e
          /\ unwrap err = Some e).
Proof.
  split; [|split].
  - destruct (endpointLoop_shape env ip timeout maxRetries apiList None tr)
      as (ks & Hlen & Hall & Htr & Hfull & _).
    exists ks. auto.
  - intros baseURL rest lastErr e Hmax Hq Hnr.
    rewrite endpointLoop_cons, seqZ_cons by lia. rewrite retryLoop_cons.
    pose proof (queryLLCFromAPI_trace env ip baseURL timeout tr) as T.
    destruct (queryLLCFromAPI env ip baseURL timeout tr) as [[llc o] t].
    simpl in Hq, T. subst o t. now rewrite Hnr.
  - intros err Hne Hmax Herr.
    destruct (endpointLoop_shape env ip timeout maxRetries apiList None tr)
      as (_ & _ & _ & _ & _ & Hok).
    unfold fetchOk in Hok. fold (fetchLLCWithRetry env ip apiList timeout maxRetries) in Hok.
    destruct (fst (fetchLLCWithRetry env ip apiList timeout maxRetries tr))
      as [llc o] eqn:E.
    simpl in Herr. subst o. destruct Hok as [_ [([Hnil | HN] & _) | Hex]].
    + contradiction.
    + lia.
    + destruct Hex as (baseURL & tr0 & e & Hlast & Hsnd & Hq & ->).
      exists baseURL, tr0, e. simpl. auto.
Qed.

Lemma C6_endpoints_in_order_and_exhaustion_witness :
  exists baseURL tr0 e,
    last [Scenario.api; Scenario.backup] = Some baseURL
    /\ snd (fetchLLCWithRetry Scenario.down Scenario.ip1
              [Scenario.api; Scenario.backup] Scenario.tenSeconds 1 [])
       = (tr0 ++ [EvGet (baseURL +:+ Scenario.ip1)])%list
    /\ snd (fst (queryLLCFromAPI Scenario.down Scenario.ip1 baseURL
                   Scenario.tenSeconds tr0)) = Some e
    /\ errorfW allFailed
         (Some (errorfW "HTTP 请求失败: "
                  (Some (Scenario.dialTimeout (Scenario.backup +:+ Scenario.ip1)))))
       = ErrWrap (allFailed +:+ errorText e) e
    /\ unwrap
         (errorfW allFailed
            (Some (errorfW "HTTP 请求失败: "
                     (Some (Scenario.dialTimeout (Scenario.backup +:+ Scenario.ip1))))))
       = Some e.
Proof.
  apply (proj2 (proj2 (C6_endpoints_in_order_and_exhaustion Scenario.down Scenario.ip1
                         [Scenario.api; Scenario.backup] Scenario.tenSeconds 1 []))).
  - discriminate.
  - lia.
  - reflexivity.
Defined.



Lemma isRetryable_marker (e : error) :
  isRetryable (Some e) = hasMarker (errorText e).
Proof. unfold isRetryable, hasMarker. now destruct (_ || _). Qed.

(** A wrapping message without the letters [t] and [E] leaves the
    classification to the wrapped text. *)
Lemma hasMarker_app_skip (pre s : string) :
  Spec.hasByte "t" pre = false -> Spec.hasByte "E" pre = false ->
  hasMarker (pre +:+ s) = hasMarker s.
Proof.
  intros Ht HE. unfold hasMarker.
  now rewrite (Contains_app_skip pre s "t" "imeout" Ht),
              (Contains_app_skip pre s "E" "OF" HE).
Qed.


(** The markers are compared byte for byte: the text with which [net/http]
    reports that [Client.Timeout] ran out spells the word with a capital
    letter and carries neither marker. *)
Example hasMarker_client_timeout :
  hasMarker "context deadline exceeded (Client.Timeout exceeded while awaiting headers)"
  = false.
Proof. reflexivity. Qed.




End LookupSpec.

(** ** The orchestrator *)

Module OrchestratorSpec.
Import Lookup Orchestrator Spec LookupFacts OrchestratorFacts.

(** The task of one domain, case by case. *)
Lemma domainTask_cases env fl limiter dc tr :
  domainTask env fl limiter dc tr =
  let tr1 := (tr ++ [EvLookupIP (Name dc)])%list in
  match lookupIP env tr (timeout fl) (Name dc) with
  | (_, Some err) =>
      ({| Domain := Name dc; Expected := ExpectedLlcs dc; IPResults := [];
          IsPolluted := true; Summary := "DNS 解析失败: " +:+ errorText err |}, tr1)
  | (ips, None) =>
      if (length ips =? 0)%nat then
        ({| Domain := Name dc; Expected := ExpectedLlcs dc; IPResults := [];
            IsPolluted := true; Summary := "没有找到 IPv4 地址" |}, tr1)
      else
        (Aggregator.aggregateDomainResult (Name dc) (ExpectedLlcs dc)
           (fst (ipLoop env fl limiter ips [] tr1)) (strict fl),
         snd (ipLoop env fl limiter ips [] tr1))
  end.
Proof.
  unfold domainTask, bind, history, emit, ret. cbv zeta.
  destruct (lookupIP env tr (timeout fl) (Name dc)) as [ips [err|]]; [reflexivity|].
  destruct (length ips =? 0)%nat; [reflexivity|].
  now destruct (ipLoop env fl limiter ips [] _).
Qed.



(** One turn of the collection of the results. *)
Lemma runTasks_cons env fl limiter dc rest tr :
  runTasks env fl limiter (dc :: rest) tr =
  (fst (domainTask env fl limiter dc tr)
     :: fst (runTasks env fl limiter rest (snd (domainTask env fl limiter dc tr))),
   snd (runTasks env fl limiter rest (snd (domainTask env fl limiter dc tr)))).
Proof.
  cbn [runTasks]. unfold bind, ret.
  destruct (domainTask env fl limiter dc tr) as [res tr1]. simpl.
  now destruct (runTasks env fl limiter rest tr1).
Qed.







End OrchestratorSpec.

(** ** The statistics of the report *)

Module ReportSpec.
Import Report.

Lemma countPolluted_spec (results : list DomainResult) : forall acc,
  countPolluted results acc = acc + Z.of_nat (length (List.filter IsPolluted results)).
Proof.
  induction results as [|r results IH]; intros acc; simpl; [lia|].
  rewrite IH. destruct (IsPolluted r); simpl; lia.
Qed.

(** Above a positive constant [b], and so not below any constant [a <= b]. *)
Lemma SFleb_ltb_false (ma mb : positive) (ea eb : Z) (x : spec_float) :
  SFleb (S754_finite false ma ea) (S754_finite false mb eb) = true ->
  SFleb (S754_finite false mb eb) x = true ->
  SFltb x (S754_finite false ma ea) = false.
Proof.
  unfold SFleb, SFltb.
  destruct x as [s|s| |s m e]; simpl; try destruct s; simpl;
    try discriminate; try reflexivity.
  change (Pos.compare_cont Eq ma mb) with (Pos.compare ma mb).
  change (Pos.compare_cont Eq mb m) with (Pos.compare mb m).
  change (Pos.compare_cont Eq m ma) with (Pos.compare m ma).
  destruct (Z.compare_spec ea eb), (Z.compare_spec eb e), (Z.compare_spec e ea);
    try discriminate; try reflexivity; try lia;
    destruct (Pos.compare_spec ma mb), (Pos.compare_spec mb m), (Pos.compare_spec m ma);
    try discriminate; try reflexivity; lia.
Qed.

(** The three thresholds are ordered as expected. *)
Lemma above_not_below (a b : Z) (x : spec_float) :
  In a [20; 40; 60] -> In b [20; 40; 60] -> a <= b ->
  SFleb (float64_of_int b) x = true -> SFltb x (float64_of_int a) = false.
Proof.
  simpl. intros Ha Hb Hab.
  repeat (destruct Ha as [<- | Ha]; [|]); try contradiction;
    repeat (destruct Hb as [<- | Hb]; [|]); try contradiction; try lia;
    match goal with
    | |- SFleb ?B x = true -> SFltb x ?A = false =>
        let A' := eval vm_compute in A in
        let B' := eval vm_compute in B in
        change A with A'; change B with B';
        intros H; eapply SFleb_ltb_false; [|exact H]; reflexivity
    end.
Qed.

(** C7. The statistics of the run.  [total] is the number of domain
    results and [pollutedCount] the number of those marked polluted; the
    rate is [pollutedCount / total * 100], computed in [float64], when
    [total > 0], and 0 when there is no domain; the level is read off the
    rate with thresholds that include their lower bound and exclude their
    upper bound: below 20 Normal, from 20 to below 40 Mild, from 40 to below
    60 Moderate, from 60 on Severe.  A run over no domain has rate 0 and
    level Normal. *)
Theorem C7_rate_and_level (results : list DomainResult) :
  let s := buildReport results in
  total s = Z.of_nat (length results)
  /\ pollutedCount s = Z.of_nat (length (List.filter IsPolluted results))
  /\ (0 < total s ->
      pollutionRate s
      = fmul (fdiv (float64_of_int (pollutedCount s)) (float64_of_int (total s)))
             (float64_of_int 100))
  /\ (total s = 0 -> pollutionRate s = S754_zero false /\ level s = Normal)
  /\ level s = pollutionLevel (pollutionRate s)
  /\ (forall rate,
        (SFltb rate (float64_of_int 20) = true -> pollutionLevel rate = Normal)
        /\ (SFleb (float64_of_int 20) rate = true -> SFltb rate (float64_of_int 40) = true ->
            pollutionLevel rate = Mild)
        /\ (SFleb (float64_of_int 40) rate = true -> SFltb rate (float64_of_int 60) = true ->
            pollutionLevel rate = Moderate)
        /\ (SFleb (float64_of_int 60) rate = true -> pollutionLevel rate = Severe))
  /\ buildReport []
     = {| total := 0; pollutedCount := 0; pollutionRate := S754_zero false;
          level := Normal |}.
Proof.
  intros s. subst s. unfold buildReport. cbn [total pollutedCount pollutionRate level].
  rewrite countPolluted_spec, Z.add_0_l.
  split; [reflexivity|]. split; [reflexivity|]. split.
  { intros Hpos. apply Z.ltb_lt in Hpos. now rewrite Hpos. }
  split.
  { intros Hz. rewrite Hz. split; reflexivity. }
  split; [reflexivity|]. split; [|reflexivity].
  intros rate. unfold pollutionLevel. split; [|split; [|split]].
  - now intros ->.
  - intros H20 H40.
    rewrite (above_not_below 20 20 rate) by (simpl; auto; lia). now rewrite H40.
  - intros H40 H60.
    rewrite (above_not_below 20 40 rate), (above_not_below 40 40 rate)
      by (simpl; auto; lia).
    now rewrite H60.
  - intros H60.
    now rewrite (above_not_below 20 60 rate), (above_not_below 40 60 rate),
                (above_not_below 60 60 rate) by (simpl; auto; lia).
Qed.

(** Two domains, one of them polluted: rate 50, level Moderate. *)
Lemma C7_rate_and_level_witness :
  let clean := {| Domain := "a.example"; Expected := ["AMAZON"]; IPResults := [];
                  IsPolluted := false; Summary := "至少有一个 IP 符合预期" |} in
  let bad := {| Domain := "b.example"; Expected := ["GOOGLE"]; IPResults := [];
                IsPolluted := true; Summary := "没有找到 IPv4 地址" |} in
  pollutionRate (buildReport [clean; bad]) = float64_of_int 50
  /\ pollutionLevel (pollutionRate (buildReport [clean; bad])) = Moderate.
Proof.
  intros clean bad.
  pose proof (C7_rate_and_level [clean; bad]) as (_ & _ & Hrate & _ & _ & Hlevel & _).
  split.
  - rewrite Hrate; [reflexivity | reflexivity].
  - apply (proj1 (proj2 (proj2 (Hlevel _)))); reflexivity.
Defined.

(** The level at and next to the thresholds, for rates the program can
    compute: 1, 2 and 3 polluted domains out of 5 give exactly 20, 40 and
    60. *)
Example pollutionLevel_boundaries :
  fmul (fdiv (float64_of_int 1) (float64_of_int 5)) (float64_of_int 100) = float64_of_int 20
  /\ fmul (fdiv (float64_of_int 2) (float64_of_int 5)) (float64_of_int 100) = float64_of_int 40
  /\ fmul (fdiv (float64_of_int 3) (float64_of_int 5)) (float64_of_int 100) = float64_of_int 60
  /\ pollutionLevel (fdiv (float64_of_int 19999) (float64_of_int 1000)) = Normal
  /\ pollutionLevel (float64_of_int 20) = Mild
  /\ pollutionLevel (fdiv (float64_of_int 39999) (float64_of_int 1000)) = Mild
  /\ pollutionLevel (float64_of_int 40) = Moderate
  /\ pollutionLevel (fdiv (float64_of_int 59999) (float64_of_int 1000)) = Moderate
  /\ pollutionLevel (float64_of_int 60) = Severe.
Proof. repeat split; vm_compute; reflexivity. Qed.

End ReportSpec.

(** * Further properties of the code *)

(** ** The field probe *)

Module ExtractFacts.
Import Lookup Spec Measure.

Lemma probe_cons_skip (data : IPInfoRaw) (key : string) (keys : list string) :
  ~ nonEmptyString (data !! key) -> probe data (key :: keys) = probe data keys.
Proof.
  intros Hno. simpl. destruct (data !! key) as [[| | |s| |]|] eqn:E; try reflexivity.
  destruct (String.eqb s "") eqn:Es; [reflexivity|].
  destruct Hno. exists s. split; [reflexivity | now apply String.eqb_neq].
Qed.

Lemma probe_cons_hit (data : IPInfoRaw) (key : string) (keys : list string) (s : string) :
  data !! key = Some (JString s) -> s <> "" -> probe data (key :: keys) = Some s.
Proof.
  intros E Hne. simpl. rewrite E. apply String.eqb_neq in Hne. now rewrite Hne.
Qed.

Lemma nonEmptyString_dec (v : option jvalue) :
  nonEmptyString v \/ ~ nonEmptyString v.
Proof.
  destruct v as [[| | |s| |]|]; try (right; intros (s' & H & _); discriminate).
  destruct (String.eqb s "") eqn:Es.
  - apply String.eqb_eq in Es. subst. right. intros (s' & [= <-] & H). now apply H.
  - left. exists s. split; [reflexivity | now apply String.eqb_neq].
Qed.

(** The probe returns the value of the first key, in the order of the
    list, that holds a non-empty string. *)
Lemma probe_first (data : IPInfoRaw) (keys : list string) (s : string) :
  probe data keys = Some s <->
  exists before key after,
    keys = (before ++ key :: after)%list
    /\ data !! key = Some (JString s) /\ s <> ""
    /\ Forall (fun k => ~ nonEmptyString (data !! k)) before.
Proof.
  induction keys as [|key keys IH].
  - split; [discriminate|]. intros (b & k & a & H & _). now destruct b.
  - destruct (nonEmptyString_dec (data !! key)) as [(s' & E & Hne) | Hno].
    + rewrite (probe_cons_hit _ _ _ _ E Hne). split.
      * intros [= <-]. exists [], key, keys. repeat split; auto.
      * intros (b & k & a & Hk & Ek & Hs & Hb). destruct b as [|k' b].
        -- simpl in Hk. injection Hk as <- _. congruence.
        -- simpl in Hk. injection Hk as <- _. inversion Hb as [|? ? Hk' _]; subst.
           destruct Hk'. now exists s'.
    + rewrite (probe_cons_skip _ _ _ Hno), IH. split.
      * intros (b & k & a & -> & Ek & Hs & Hb).
        exists (key :: b), k, a. repeat split; auto.
      * intros (b & k & a & Hk & Ek & Hs & Hb). destruct b as [|k' b].
        -- simpl in Hk. injection Hk as <- _. destruct Hno. now exists s.
        -- simpl in Hk. injection Hk as <- ->. inversion Hb; subst.
           exists b, k, a. repeat split; auto.
Qed.

Lemma probe_none (data : IPInfoRaw) (keys : list string) :
  probe data keys = None <-> Forall (fun k => ~ nonEmptyString (data !! k)) keys.
Proof.
  induction keys as [|key keys IH].
  - split; [constructor | reflexivity].
  - destruct (nonEmptyString_dec (data !! key)) as [(s' & E & Hne) | Hno].
    + rewrite (probe_cons_hit _ _ _ _ E Hne). split; [discriminate|].
      intros H. inversion H as [|? ? Hk _]; subst. destruct Hk. now exists s'.
    + rewrite (probe_cons_skip _ _ _ Hno), IH. split.
      * intros H. now constructor.
      * intros H. now inversion H.
Qed.

(** X1. [extractLLC] returns, without error, the value of the first of the
    keys [llc], [isp], [carrier], [org], [asn_description] that holds a
    non-empty string; keys that are absent, hold another kind of value or
    hold the empty string are passed over. *)
Theorem X1_extractLLC_first_candidate (env : Env) (data : IPInfoRaw) (s : string) :
  extractLLC env data = (s, None) <->
  exists before key after,
    possibleKeys = (before ++ key :: after)%list
    /\ data !! key = Some (JString s) /\ s <> ""
    /\ Forall (fun k => ~ nonEmptyString (data !! k)) before.
Proof.
  rewrite <- probe_first. unfold extractLLC.
  destruct (probe data possibleKeys) as [s'|]; split; intros H; try discriminate; congruence.
Qed.

(** X2. [extractLLC] fails exactly when none of the five keys holds a
    non-empty string; it then returns the empty label and an error whose
    text is the fixed message followed by the printed document. *)
Theorem X2_extractLLC_failure (env : Env) (data : IPInfoRaw) :
  (is_Some (snd (extractLLC env data)) <->
     Forall (fun k => ~ nonEmptyString (data !! k)) possibleKeys)
  /\ (forall err, snd (extractLLC env data) = Some err ->
        fst (extractLLC env data) = ""
        /\ errorText err = "无法从响应中提取 LLC 字段，响应内容: " +:+ fmtMap env data
        /\ unwrap err = None).
Proof.
  rewrite <- probe_none. unfold extractLLC.
  destruct (probe data possibleKeys) as [s'|]; simpl; split.
  - split; [intros [x Hx]; discriminate | discriminate].
  - discriminate.
  - split; [reflexivity | intros _; eexists; reflexivity].
  - intros err [= <-]. repeat split.
Qed.

(** X3. Fields other than the five candidates do not matter: adding,
    changing or removing such a field leaves the extracted label, and
    whether there is one, unchanged. *)
Theorem X3_extractLLC_ignores_other_fields (env : Env) (data : IPInfoRaw)
    (k : string) (v : jvalue) :
  k ∉ possibleKeys ->
  probe (<[k := v]> data) possibleKeys = probe data possibleKeys
  /\ probe (delete k data) possibleKeys = probe data possibleKeys
  /\ fst (extractLLC env (<[k := v]> data)) = fst (extractLLC env data)
  /\ fst (extractLLC env (delete k data)) = fst (extractLLC env data).
Proof.
  intros Hk.
  assert (Hins : forall keys, k ∉ keys ->
            probe (<[k := v]> data) keys = probe data keys).
  { induction keys as [|key keys IH]; intros Hn; [reflexivity|].
    simpl. rewrite lookup_insert_ne by (intros ->; apply Hn; left).
    rewrite IH by (intros Hin; apply Hn; now right). reflexivity. }
  assert (Hdel : forall keys, k ∉ keys ->
            probe (delete k data) keys = probe data keys).
  { induction keys as [|key keys IH]; intros Hn; [reflexivity|].
    simpl. rewrite lookup_delete_ne by (intros ->; apply Hn; left).
    rewrite IH by (intros Hin; apply Hn; now right). reflexivity. }
  split; [now apply Hins|]. split; [now apply Hdel|].
  unfold extractLLC. rewrite (Hins _ Hk), (Hdel _ Hk).
  destruct (probe data possibleKeys); split; reflexivity.
Qed.

Lemma X3_extractLLC_ignores_other_fields_witness :
  probe (<["country" := JString "JP"]> {[ "llc" := JString "AMAZON-02" ]}) possibleKeys
  = probe {[ "llc" := JString "AMAZON-02" ]} possibleKeys.
Proof.
  apply (X3_extractLLC_ignores_other_fields Scenario.flaky
           {[ "llc" := JString "AMAZON-02" ]} "country" (JString "JP")).
  vm_compute. intros H. 
  repeat (apply elem_of_cons in H as [H|H]; [discriminate|]). inversion H.
Defined.

End ExtractFacts.

(** ** One request to one endpoint *)

Module QueryFacts.
Import Lookup Spec Measure LookupFacts LookupSpec.

(** X4. [queryLLCFromAPI] succeeds exactly when the request to
    [baseURL ++ ip] is answered with status 200, the body can be read and
    decoded, and the decoded document yields a label; the label returned is
    that one.  Whatever the outcome, exactly one request is made. *)
Theorem X4_query_success (env : Env) (ip baseURL : string) (timeout : Z)
    (tr : list event) (llc : string) :
  (fst (queryLLCFromAPI env ip baseURL timeout tr) = (llc, None) <->
     exists resp body raw,
       httpGet env tr timeout (baseURL +:+ ip) = inr resp
       /\ StatusCode resp = 200
       /\ Body resp = inr body
       /\ jsonUnmarshal env body = inr raw
       /\ probe raw possibleKeys = Some llc)
  /\ snd (queryLLCFromAPI env ip baseURL timeout tr)
     = (tr ++ [EvGet (baseURL +:+ ip)])%list.
Proof.
  split; [|apply queryLLCFromAPI_trace].
  unfold queryLLCFromAPI, bind, history, emit, ret. cbn [fst snd].
  destruct (httpGet env tr timeout (baseURL +:+ ip)) as [e|resp].
  { split; [discriminate | intros (r & b & w & H & _); discriminate]. }
  destruct (StatusCode resp =? 200) eqn:Hs; cbn [negb].
  2: { apply Z.eqb_neq in Hs.
       split; [discriminate | intros (r & b & w & [= <-] & H & _); contradiction]. }
  apply Z.eqb_eq in Hs.
  destruct (Body resp) as [e|body] eqn:Hb.
  { split; [discriminate | intros (r & b & w & [= <-] & _ & H & _); congruence]. }
  destruct (jsonUnmarshal env body) as [e|raw] eqn:Hj.
  { split; [discriminate|].
    intros (r & b & w & [= <-] & _ & Hb' & Hj' & _). congruence. }
  unfold extractLLC. destruct (probe raw possibleKeys) as [s|] eqn:Hp; cbn [fst].
  - split.
    + intros [= <-]. exists resp, body, raw. auto.
    + intros (r & b & w & [= <-] & _ & Hb' & Hj' & Hp'). congruence.
  - split; [discriminate|].
    intros (r & b & w & [= <-] & _ & Hb' & Hj' & Hp'). congruence.
Qed.

(** X5. The failures of [queryLLCFromAPI].  A failing call returns the
    empty label and one of five errors: the failure of the request, of
    reading the body or of decoding it, each wrapped under its own message;
    or, wrapping nothing, the status that is not 200 (whatever the body
    holds) or the document in which no label was found. *)
Theorem X5_query_failure_kinds (env : Env) (ip baseURL : string) (timeout : Z)
    (tr : list event) (err : error) :
  snd (fst (queryLLCFromAPI env ip baseURL timeout tr)) = Some err ->
  let answer := httpGet env tr timeout (baseURL +:+ ip) in
  fst (fst (queryLLCFromAPI env ip baseURL timeout tr)) = ""
  /\ ((exists e, answer = inl e
         /\ err = ErrWrap ("HTTP 请求失败: " +:+ errorText e) e)
      \/ (exists resp, answer = inr resp /\ StatusCode resp <> 200
            /\ err = ErrString ("API 返回非 200 状态码: " +:+ itoa (StatusCode resp)))
      \/ (exists resp e, answer = inr resp /\ StatusCode resp = 200
            /\ Body resp = inl e
            /\ err = ErrWrap ("读取响应体失败: " +:+ errorText e) e)
      \/ (exists resp body e, answer = inr resp /\ StatusCode resp = 200
            /\ Body resp = inr body /\ jsonUnmarshal env body = inl e
            /\ err = ErrWrap ("JSON 解析失败: " +:+ errorText e) e)
      \/ (exists resp body raw, answer = inr resp /\ StatusCode resp = 200
            /\ Body resp = inr body /\ jsonUnmarshal env body = inr raw
            /\ probe raw possibleKeys = None
            /\ err = ErrString ("无法从响应中提取 LLC 字段，响应内容: " +:+ fmtMap env raw))).
Proof.
  intros Herr answer. subst answer. revert Herr.
  unfold queryLLCFromAPI, bind, history, emit, ret. cbn [fst snd].
  destruct (httpGet env tr timeout (baseURL +:+ ip)) as [e|resp].
  { cbn [fst snd]. intros [= <-]. split; [reflexivity|]. left. eauto. }
  destruct (StatusCode resp =? 200) eqn:Hs; cbn [negb].
  2: { apply Z.eqb_neq in Hs. cbn [fst snd]. intros [= <-].
       split; [reflexivity|]. right. left. eauto. }
  apply Z.eqb_eq in Hs.
  destruct (Body resp) as [e|body] eqn:Hb.
  { cbn [fst snd]. intros [= <-]. split; [reflexivity|]. right. right. left. eauto 6. }
  destruct (jsonUnmarshal env body) as [e|raw] eqn:Hj.
  { cbn [fst snd]. intros [= <-]. split; [reflexivity|].
    right. right. right. left. exists resp, body, e. auto. }
  unfold extractLLC. destruct (probe raw possibleKeys) as [s|] eqn:Hp; cbn [fst snd].
  - discriminate.
  - intros [= <-]. split; [reflexivity|].
    right. right. right. right. exists resp, body, raw. auto 7.
Qed.

Lemma X5_query_failure_kinds_witness :
  fst (fst (queryLLCFromAPI Scenario.firstEndpointBroken Scenario.ip1 Scenario.api
              Scenario.tenSeconds [])) = "".
Proof.
  apply (X5_query_failure_kinds Scenario.firstEndpointBroken Scenario.ip1 Scenario.api
           Scenario.tenSeconds []
           (ErrString ("API 返回非 200 状态码: " +:+ itoa 500))).
  reflexivity.
Defined.

Lemma Contains_app_l (pre s sub : string) :
  Contains s sub = true -> Contains (pre +:+ s) sub = true.
Proof.
  intros H. induction pre as [|a pre IH]; simpl; [exact H|].
  rewrite IH. apply orb_true_r.
Qed.

(** X6. Retryability survives wrapping: whatever text [fmt.Errorf] puts in
    front of a retryable error, the wrapped error is retryable too; so is
    the all-endpoints error of a lookup whose last failure was retryable. *)
Theorem X6_retryable_survives_wrapping (pre : string) (e : error) :
  isRetryable (Some e) = true ->
  isRetryable (Some (errorfW pre (Some e))) = true
  /\ isRetryable (Some (errorfW allFailed (Some (errorfW pre (Some e))))) = true.
Proof.
  assert (Hwrap : forall p e', isRetryable (Some e') = true ->
                    isRetryable (Some (errorfW p (Some e'))) = true).
  { intros p e'. rewrite !isRetryable_marker. unfold errorfW, hasMarker. cbn [errorText].
    intros H. apply orb_true_iff in H as [H | H]; apply orb_true_iff;
      [left | right]; now apply Contains_app_l. }
  intros H. split; [now apply Hwrap | now apply Hwrap, Hwrap].
Qed.

Lemma X6_retryable_survives_wrapping_witness :
  isRetryable (Some (errorfW "读取响应体失败: " (Some (ErrExternal "unexpected EOF")))) = true.
Proof.
  apply (X6_retryable_survives_wrapping "读取响应体失败: " (ErrExternal "unexpected EOF")).
  reflexivity.
Defined.

(** X7. A document without a label is classified by its printed form: the
    failure of [extractLLC] is retryable iff the text printed for the
    document contains [timeout] or [EOF]. *)
Theorem X7_missing_label_classified_by_document (env : Env) (data : IPInfoRaw) :
  probe data possibleKeys = None ->
  isRetryable (snd (extractLLC env data)) = hasMarker (fmtMap env data).
Proof.
  intros Hp. unfold extractLLC. rewrite Hp. cbn [snd].
  rewrite isRetryable_marker. cbn [errorText].
  now apply hasMarker_app_skip.
Qed.

Lemma X7_missing_label_classified_by_document_witness :
  let env := {| lookupIP := Scenario.resolveOne;
                httpGet := fun _ _ url => inl (Scenario.dialTimeout url);
                jsonUnmarshal := Scenario.decode;
                fmtMap := fun _ => "map[msg:gateway timeout]" |} in
  isRetryable (snd (extractLLC env {[ "msg" := JString "gateway timeout" ]})) = true.
Proof.
  intros env.
  rewrite (X7_missing_label_classified_by_document env
             {[ "msg" := JString "gateway timeout" ]}); reflexivity.
Defined.

End QueryFacts.

(** ** The backoff *)

Module BackoffFacts.
Import Lookup Spec Measure LookupSpec.

Lemma wrap64_range (z : Z) : - 2 ^ 63 <= wrap64 z < 2 ^ 63.
Proof.
  unfold wrap64. pose proof (Z.mod_pos_bound (z + 2 ^ 63) (2 ^ 64) ltac:(lia)).
  change (2 ^ 64) with (2 * 2 ^ 63) in *. lia.
Qed.

(** X8. The backoff schedule.  For the attempts 0 to 33 the sleep is at
    least one second and doubles from one attempt to the next.  From
    attempt 34 on the 64-bit product has wrapped and the duration is no
    longer [2^attempt] seconds; from attempt 64 on it is zero. *)
Theorem X8_backoff_schedule (attempt : Z) :
  (0 <= attempt <= 33 -> Second <= backoffDuration attempt)
  /\ (0 <= attempt <= 32 -> backoffDuration (attempt + 1) = 2 * backoffDuration attempt)
  /\ (34 <= attempt -> backoffDuration attempt <> 2 ^ attempt * Second)
  /\ (64 <= attempt < 2 ^ 64 -> backoffDuration attempt = 0).
Proof.
  split; [|split; [|split]].
  - intros H. rewrite backoffDuration_pow2 by lia.
    assert (1 <= 2 ^ attempt) by (apply (Z.pow_le_mono_r 2 0 attempt); lia).
    unfold Second. lia.
  - intros H. rewrite !backoffDuration_pow2 by lia.
    rewrite Z.pow_add_r by lia. lia.
  - intros H Heq. pose proof (wrap64_range
      (wrap64 (Z.shiftl 1 (attempt mod 2 ^ 64)) * Second)) as Hr.
    fold (backoffDuration attempt) in Hr. rewrite Heq in Hr.
    assert (2 ^ 34 <= 2 ^ attempt) by (apply Z.pow_le_mono_r; lia).
    change (2 ^ 34) with 17179869184 in *.
    change (2 ^ 63) with 9223372036854775808 in Hr. unfold Second in Hr. lia.
  - intros H. unfold backoffDuration.
    rewrite Z.mod_small by lia. rewrite Z.shiftl_1_l.
    assert (Hw : wrap64 (2 ^ attempt) = 0).
    { unfold wrap64.
      replace (2 ^ attempt) with (2 ^ (attempt - 64) * 2 ^ 64)
        by (rewrite <- Z.pow_add_r by lia; f_equal; lia).
      rewrite Z.add_comm, Z.mod_add by lia.
      rewrite Z.mod_small by lia. lia. }
    rewrite Hw. reflexivity.
Qed.

Lemma X8_backoff_schedule_witness :
  backoffDuration (5 + 1) = 2 * backoffDuration 5.
Proof. apply (X8_backoff_schedule 5). lia. Defined.

End BackoffFacts.

(** ** The cost of a lookup *)

Module CostFacts.
Import Lookup Spec Measure LookupFacts LookupSpec.

Lemma requests_app (t1 t2 : list event) :
  requests (t1 ++ t2) = (requests t1 + requests t2)%nat.
Proof.
  induction t1 as [|[| | |] t1 IH]; simpl; rewrite ?IH; reflexivity.
Qed.

Lemma totalSleep_app (t1 t2 : list event) :
  totalSleep (t1 ++ t2) = totalSleep t1 + totalSleep t2.
Proof.
  induction t1 as [|[| | |] t1 IH]; simpl; rewrite ?IH; lia.
Qed.

Lemma requests_attemptsTrace url : forall k a, requests (attemptsTrace url a k) = k.
Proof.
  induction k as [|[|k] IH]; intros a; [reflexivity | reflexivity |].
  rewrite attemptsTrace_SS. cbn [requests]. now rewrite IH.
Qed.

(** [k] attempts in a row from attempt [a] on sleep for
    [2^a + ... + 2^(a+k-2)] seconds. *)
Lemma totalSleep_attemptsTrace url : forall k a,
  0 <= a -> a + Z.of_nat k <= 34 ->
  totalSleep (attemptsTrace url a (S k)) = (2 ^ (a + Z.of_nat k) - 2 ^ a) * Second.
Proof.
  induction k as [|k IH]; intros a Ha Hk.
  - simpl. rewrite Z.add_0_r. lia.
  - rewrite attemptsTrace_SS. cbn [totalSleep].
    rewrite IH by lia. rewrite backoffDuration_pow2 by lia.
    replace (a + 1 + Z.of_nat k) with (a + Z.of_nat (S k)) by lia.
    rewrite (Z.pow_add_r 2 a 1) by lia. lia.
Qed.

Lemma endpointsTrace_cost ip maxRetries : forall apis ks,
  0 <= maxRetries -> (length ks <= length apis)%nat ->
  Forall (attemptsBound maxRetries) ks ->
  (length ks <= requests (endpointsTrace ip apis ks))%nat
  /\ Z.of_nat (requests (endpointsTrace ip apis ks))
     <= Z.of_nat (length ks) * (maxRetries + 1)
  /\ (maxRetries <= 34 ->
      0 <= totalSleep (endpointsTrace ip apis ks)
        <= Z.of_nat (length ks) * ((2 ^ maxRetries - 1) * Second)).
Proof.
  intros apis ks Hmax. revert apis.
  induction ks as [|k ks IH]; intros apis Hlen Hall.
  - rewrite endpointsTrace_nil_r. simpl. lia.
  - destruct apis as [|b apis]; [simpl in Hlen; lia|].
    inversion Hall as [|? ? Hk Hks]; subst.
    apply attemptsBound_nonneg in Hk; [|exact Hmax].
    destruct (IH apis ltac:(simpl in Hlen; lia) Hks) as (IH1 & IH2 & IH3).
    cbn [endpointsTrace]. rewrite requests_app, totalSleep_app, requests_attemptsTrace.
    cbn [length]. split; [lia|]. split; [nia|].
    intros H34. specialize (IH3 H34).
    destruct k as [|k]; [lia|].
    rewrite totalSleep_attemptsTrace by lia.
    assert (1 <= 2 ^ Z.of_nat k <= 2 ^ maxRetries).
    { split; [apply (Z.pow_le_mono_r 2 0); lia | apply Z.pow_le_mono_r; lia]. }
    rewrite Z.add_0_l. change (2 ^ 0) with 1. unfold Second in *. nia.
Qed.

Lemma retryLoop_extends env ip baseURL timeout maxRetries : forall attempts lastErr t,
  exists ext,
    snd (retryLoop env ip baseURL timeout maxRetries attempts lastErr t) = (t ++ ext)%list.
Proof.
  induction attempts as [|a attempts IH]; intros lastErr t.
  - exists []. simpl. now rewrite app_nil_r.
  - rewrite retryLoop_cons.
    pose proof (queryLLCFromAPI_trace env ip baseURL timeout t) as T.
    destruct (queryLLCFromAPI env ip baseURL timeout t) as [[llc [e|]] t1];
      simpl in T; subst t1.
    + destruct (isRetryable (Some e) && (a <? maxRetries)).
      * destruct (IH (Some e) ((t ++ [EvGet (baseURL +:+ ip)])
                                 ++ [EvSleep (backoffDuration a)])%list) as [ext Hext].
        rewrite Hext, <- !app_assoc. eexists. reflexivity.
      * eexists. reflexivity.
    + eexists. reflexivity.
Qed.

(** With [maxRetries >= 0] the first call of a lookup is the request to
    the first endpoint. *)
Lemma fetch_first env ip b rest timeout maxRetries tr :
  0 <= maxRetries ->
  exists ext,
    snd (fetchLLCWithRetry env ip (b :: rest) timeout maxRetries tr)
    = (tr ++ EvGet (b +:+ ip) :: ext)%list.
Proof.
  intros Hmax. unfold fetchLLCWithRetry.
  rewrite endpointLoop_cons, seqZ_cons by lia. rewrite retryLoop_cons.
  pose proof (queryLLCFromAPI_trace env ip b timeout tr) as T.
  destruct (queryLLCFromAPI env ip b timeout tr) as [[llc [e|]] t1];
    simpl in T; subst t1.
  - set (t1 := (tr ++ [EvGet (b +:+ ip)])%list).
    assert (Hnext : forall x t2, (exists e2, t2 = (t1 ++ e2)%list) ->
              exists ext,
                snd (match x with
                     | Returned l => (l, None, t2)
                     | Broke le => endpointLoop env ip timeout maxRetries rest le t2
                     end) = (tr ++ EvGet (b +:+ ip) :: ext)%list).
    { intros x t2 [e2 ->]. destruct x as [l|le].
      - exists e2. simpl. unfold t1. now rewrite <- app_assoc.
      - destruct (endpointLoop_shape env ip timeout maxRetries rest le (t1 ++ e2)%list)
          as (ks & _ & _ & Hk & _).
        rewrite Hk. unfold t1. rewrite <- !app_assoc. eexists. reflexivity. }
    destruct (isRetryable (Some e) && (0 <? maxRetries)).
    + destruct (retryLoop_extends env ip b timeout maxRetries
                  (seqZ (Z.succ 0) (Z.pred (maxRetries + 1))) (Some e)
                  (t1 ++ [EvSleep (backoffDuration 0)])%list) as [ext Hext].
      destruct (retryLoop env ip b timeout maxRetries _ (Some e) _) as [x t2].
      simpl in Hext. apply Hnext. subst t2. rewrite <- app_assoc. eexists. reflexivity.
    + apply (Hnext (Broke (Some e)) t1). exists []. now rewrite app_nil_r.
  - exists []. reflexivity.
Qed.



(** X10. The time a lookup spends sleeping.  With [0 <= maxRetries <= 34]
    the sleeps of a lookup add up to at most [2^maxRetries - 1] seconds per
    endpoint, and never to a negative amount; with [maxRetries = 0] a lookup
    does not sleep at all. *)
Theorem X10_sleep_of_a_lookup (env : Env) (ip : string) (apis : list string)
    (timeout maxRetries : Z) (tr : list event) :
  0 <= maxRetries <= 34 ->
  let r := fetchLLCWithRetry env ip apis timeout maxRetries tr in
  0 <= totalSleep (snd r) - totalSleep tr
    <= Z.of_nat (length apis) * ((2 ^ maxRetries - 1) * Second)
  /\ (maxRetries = 0 -> sleeps (snd r) = sleeps tr).
Proof.
  intros Hmax r. subst r.
  destruct (endpointLoop_shape env ip timeout maxRetries apis None tr)
    as (ks & Hlen & Hall & Htr & _).
  fold (fetchLLCWithRetry env ip apis timeout maxRetries) in Htr.
  destruct (endpointsTrace_cost ip maxRetries apis ks ltac:(lia) Hlen Hall)
    as (_ & _ & H3).
  specialize (H3 ltac:(lia)). rewrite Htr, totalSleep_app.
  assert (0 <= (2 ^ maxRetries - 1) * Second).
  { assert (1 <= 2 ^ maxRetries) by (apply (Z.pow_le_mono_r 2 0); lia).
    unfold Second. lia. }
  split; [nia|].
  intros ->. clear H3 H Hmax.
  assert (Hs : forall t1 t2, sleeps (t1 ++ t2) = (sleeps t1 ++ sleeps t2)%list).
  { induction t1 as [|[| | |] t1 IH]; intros t2; simpl; rewrite ?IH; reflexivity. }
  rewrite Hs. rewrite <- (app_nil_r (sleeps tr)) at 2. f_equal.
  clear Htr. revert apis Hlen.
  induction ks as [|k ks IH]; intros apis Hlen.
  - now rewrite endpointsTrace_nil_r.
  - destruct apis as [|b apis]; [reflexivity|].
    inversion Hall as [|? ? [Hk _] Hks]; subst.
    cbn [endpointsTrace]. rewrite Hs, (IH Hks apis) by (simpl in Hlen; lia).
    rewrite app_nil_r. simpl in Hk.
    destruct k as [|[|k]]; [reflexivity | reflexivity | lia].
Qed.

Lemma X10_sleep_of_a_lookup_witness :
  let r := fetchLLCWithRetry Scenario.down Scenario.ip1
             [Scenario.api; Scenario.backup] Scenario.tenSeconds 1 [] in
  0 <= totalSleep (snd r) - totalSleep []
    <= Z.of_nat (length [Scenario.api; Scenario.backup]) * ((2 ^ 1 - 1) * Second).
Proof.
  intros r.
  apply (X10_sleep_of_a_lookup Scenario.down Scenario.ip1
           [Scenario.api; Scenario.backup] Scenario.tenSeconds 1 []).
  lia.
Defined.

End CostFacts.

(** ** The course of a lookup *)

Module FetchFacts.
Import Lookup Spec Measure LookupFacts LookupSpec CostFacts.

(** X11. With a negative [maxRetries], or with no endpoint, a lookup makes
    no call at all and fails with the all-endpoints error, which then wraps
    nothing: its text ends with the [%!w(<nil>)] that [fmt.Errorf] prints
    for the missing error. *)
Theorem X11_lookup_without_attempt (env : Env) (ip : string) (apis : list string)
    (timeout maxRetries : Z) (tr : list event) :
  maxRetries < 0 \/ apis = [] ->
  fetchLLCWithRetry env ip apis timeout maxRetries tr
  = (("", Some (ErrString "所有 API 尝试均失败: %!w(<nil>)")), tr)
  /\ (forall err,
        snd (fst (fetchLLCWithRetry env ip apis timeout maxRetries tr)) = Some err ->
        unwrap err = None).
Proof.
  intros H.
  assert (E : fetchLLCWithRetry env ip apis timeout maxRetries tr
              = (("", Some (ErrString "所有 API 尝试均失败: %!w(<nil>)")), tr)).
  { unfold fetchLLCWithRetry. destruct H as [Hneg | ->]; [|reflexivity].
    induction apis as [|b rest IH]; [reflexivity|].
    rewrite endpointLoop_cons.
    replace (seqZ 0 (maxRetries + 1)) with (@nil Z)
      by (unfold seqZ; now replace (Z.to_nat (maxRetries + 1)) with 0%nat by lia).
    exact IH. }
  split; [exact E|]. rewrite E. now intros err [= <-].
Qed.

Lemma X11_lookup_without_attempt_witness :
  fetchLLCWithRetry Scenario.flaky Scenario.ip1 [Scenario.api] Scenario.tenSeconds (-1) []
  = (("", Some (ErrString "所有 API 尝试均失败: %!w(<nil>)")), []).
Proof.
  apply (X11_lookup_without_attempt Scenario.flaky Scenario.ip1 [Scenario.api]
           Scenario.tenSeconds (-1) []).
  left. lia.
Defined.

(** X12. The first success ends the lookup: if the request to the first
    endpoint succeeds, the lookup returns its label after that single
    request, without a sleep and without a call to any other endpoint. *)
Theorem X12_first_success_ends_lookup (env : Env) (ip baseURL : string)
    (rest : list string) (timeout maxRetries : Z) (tr : list event) (llc : string) :
  0 <= maxRetries ->
  fst (queryLLCFromAPI env ip baseURL timeout tr) = (llc, None) ->
  fetchLLCWithRetry env ip (baseURL :: rest) timeout maxRetries tr
  = ((llc, None), (tr ++ [EvGet (baseURL +:+ ip)])%list).
Proof.
  intros Hmax Hq. unfold fetchLLCWithRetry.
  rewrite endpointLoop_cons, seqZ_cons by lia. rewrite retryLoop_cons.
  pose proof (queryLLCFromAPI_trace env ip baseURL timeout tr) as T.
  destruct (queryLLCFromAPI env ip baseURL timeout tr) as [r t1].
  simpl in Hq, T. now subst r t1.
Qed.

Lemma X12_first_success_ends_lookup_witness :
  fetchLLCWithRetry Scenario.firstEndpointBroken Scenario.ip1
    [Scenario.backup; Scenario.api] Scenario.tenSeconds 2 []
  = (("AMAZON-02", None), [EvGet (Scenario.backup +:+ Scenario.ip1)]).
Proof.
  apply (X12_first_success_ends_lookup Scenario.firstEndpointBroken Scenario.ip1
           Scenario.backup [Scenario.api] Scenario.tenSeconds 2 [] "AMAZON-02");
    [lia | reflexivity].
Defined.

(** A failure that is not retryable sends the lookup to the next endpoint. *)
Lemma endpointLoop_non_retryable env ip timeout maxRetries b rest lastErr e tr :
  0 <= maxRetries ->
  snd (fst (queryLLCFromAPI env ip b timeout tr)) = Some e ->
  isRetryable (Some e) = false ->
  endpointLoop env ip timeout maxRetries (b :: rest) lastErr tr
  = endpointLoop env ip timeout maxRetries rest (Some e) (tr ++ [EvGet (b +:+ ip)])%list.
Proof.
  intros Hmax Hq Hnr.
  rewrite endpointLoop_cons, seqZ_cons by lia. rewrite retryLoop_cons.
  pose proof (queryLLCFromAPI_trace env ip b timeout tr) as T.
  destruct (queryLLCFromAPI env ip b timeout tr) as [[llc o] t].
  simpl in Hq, T. subst o t. now rewrite Hnr.
Qed.

(** X13. When every request fails with an error that is not retryable, a
    lookup with [maxRetries >= 0] makes exactly one request to each endpoint,
    in the order of the list, and never sleeps. *)
Theorem X13_non_retryable_one_request_each (env : Env) (ip : string)
    (apis : list string) (timeout maxRetries : Z) (tr : list event) :
  0 <= maxRetries ->
  (forall baseURL tr', exists e,
      snd (fst (queryLLCFromAPI env ip baseURL timeout tr')) = Some e
      /\ isRetryable (Some e) = false) ->
  snd (fetchLLCWithRetry env ip apis timeout maxRetries tr)
  = (tr ++ map (fun baseURL => EvGet (baseURL +:+ ip)) apis)%list
  /\ is_Some (snd (fst (fetchLLCWithRetry env ip apis timeout maxRetries tr))).
Proof.
  intros Hmax Hfail. unfold fetchLLCWithRetry. generalize (@None error) as lastErr.
  revert tr. induction apis as [|b rest IH]; intros tr lastErr.
  - simpl. rewrite app_nil_r. split; [reflexivity | eexists; reflexivity].
  - destruct (Hfail b tr) as (e & Hq & Hnr).
    rewrite (endpointLoop_non_retryable env ip timeout maxRetries
               b rest lastErr e tr Hmax Hq Hnr).
    destruct (IH (tr ++ [EvGet (b +:+ ip)])%list (Some e)) as [Htr Hs].
    rewrite Htr. simpl. rewrite <- app_assoc. split; [reflexivity | exact Hs].
Qed.

Lemma X13_non_retryable_one_request_each_witness :
  snd (fetchLLCWithRetry (alwaysStatus 404) Scenario.ip1
         [Scenario.api; Scenario.backup] Scenario.tenSeconds 2 [])
  = [EvGet (Scenario.api +:+ Scenario.ip1); EvGet (Scenario.backup +:+ Scenario.ip1)].
Proof.
  apply (X13_non_retryable_one_request_each (alwaysStatus 404) Scenario.ip1
           [Scenario.api; Scenario.backup] Scenario.tenSeconds 2 []); [lia|].
  intros baseURL tr'. eexists. split; reflexivity.
Defined.

(** The label a loop over the attempts returns is the answer to the last
    request made. *)
Lemma retryLoop_returned env ip baseURL timeout maxRetries : forall attempts lastErr t llc,
  fst (retryLoop env ip baseURL timeout maxRetries attempts lastErr t) = Returned llc ->
  exists tr0,
    snd (retryLoop env ip baseURL timeout maxRetries attempts lastErr t)
    = (tr0 ++ [EvGet (baseURL +:+ ip)])%list
    /\ fst (queryLLCFromAPI env ip baseURL timeout tr0) = (llc, None).
Proof.
  induction attempts as [|a attempts IH]; intros lastErr t llc; [simpl; discriminate|].
  rewrite retryLoop_cons.
  pose proof (queryLLCFromAPI_trace env ip baseURL timeout t) as T.
  destruct (queryLLCFromAPI env ip baseURL timeout t) as [[l [e|]] t1] eqn:Hq;
    simpl in T; subst t1.
  - destruct (isRetryable (Some e) && (a <? maxRetries)); [apply IH | simpl; discriminate].
  - intros [= <-]. exists t. rewrite Hq. auto.
Qed.

(** X14. A label returned by a lookup is the one the last request of the
    lookup was answered with, and that request went to one of the
    configured endpoints: a lookup never ends on a sleep and never returns
    a label from an earlier attempt. *)
Theorem X14_label_from_last_request (env : Env) (ip : string) (apis : list string)
    (timeout maxRetries : Z) (tr : list event) (llc : string) :
  fst (fetchLLCWithRetry env ip apis timeout maxRetries tr) = (llc, None) ->
  exists baseURL tr0,
    baseURL ∈ apis
    /\ snd (fetchLLCWithRetry env ip apis timeout maxRetries tr)
       = (tr0 ++ [EvGet (baseURL +:+ ip)])%list
    /\ fst (queryLLCFromAPI env ip baseURL timeout tr0) = (llc, None).
Proof.
  unfold fetchLLCWithRetry. generalize (@None error) at 1 3 as lastErr. revert tr.
  induction apis as [|b rest IH]; intros tr lastErr; [simpl; discriminate|].
  rewrite endpointLoop_cons.
  pose proof (retryLoop_returned env ip b timeout maxRetries
                (seqZ 0 (maxRetries + 1)) lastErr tr) as Hret.
  destruct (retryLoop env ip b timeout maxRetries _ lastErr tr) as [[l|le] t1].
  - intros [= <-]. destruct (Hret l eq_refl) as (tr0 & H1 & H2).
    exists b, tr0. split; [left | auto].
  - intros H. destruct (IH t1 le H) as (b' & tr0 & Hin & H1 & H2).
    exists b', tr0. split; [now right | auto].
Qed.

Lemma X14_label_from_last_request_witness :
  exists baseURL tr0,
    baseURL ∈ [Scenario.api]
    /\ snd (fetchLLCWithRetry Scenario.flaky Scenario.ip1 [Scenario.api]
              Scenario.tenSeconds 2 [])
       = (tr0 ++ [EvGet (baseURL +:+ Scenario.ip1)])%list
    /\ fst (queryLLCFromAPI Scenario.flaky Scenario.ip1 baseURL Scenario.tenSeconds tr0)
       = ("AMAZON-02", None).
Proof.
  apply (X14_label_from_last_request Scenario.flaky Scenario.ip1 [Scenario.api]
           Scenario.tenSeconds 2 [] "AMAZON-02").
  reflexivity.
Defined.

End FetchFacts.

(** ** More on the aggregator *)

Module AggregatorMore.
Import Aggregator Spec AggregatorFacts.

Lemma polluted_lenient domain expected rs :
  IsPolluted (aggregateDomainResult domain expected rs false)
  = negb (existsb (ipMatch expected) rs).
Proof. unfold aggregateDomainResult. cbn [IsPolluted]. now rewrite runLoop_anySuccess. Qed.

Lemma polluted_strict domain expected rs :
  IsPolluted (aggregateDomainResult domain expected rs true)
  = negb (forallb (ipMatch expected) rs).
Proof. unfold aggregateDomainResult. cbn [IsPolluted]. now rewrite runLoop_allMatch. Qed.

(** X15. On at least one IP result strict mode is the stronger test: a
    domain that lenient mode reports polluted is polluted in strict mode
    too, and a domain that is clean in strict mode is clean in lenient
    mode. *)
Theorem X15_strict_implies_lenient (domain : string) (expected : list string)
    (ipResults : list IPCheckResult) :
  ipResults <> [] ->
  (IsPolluted (aggregateDomainResult domain expected ipResults false) = true ->
   IsPolluted (aggregateDomainResult domain expected ipResults true) = true)
  /\ (IsPolluted (aggregateDomainResult domain expected ipResults true) = false ->
      IsPolluted (aggregateDomainResult domain expected ipResults false) = false).
Proof.
  intros Hne. rewrite polluted_lenient, polluted_strict.
  destruct ipResults as [|r rs]; [contradiction|]. simpl.
  destruct (ipMatch expected r); simpl; split; intros H; auto; discriminate.
Qed.

Lemma X15_strict_implies_lenient_witness :
  let bad := {| IP := "203.0.113.9"; ActualLLC := "EVILCORP"; Error := None |} in
  IsPolluted (aggregateDomainResult "amazon.co.jp" ["AMAZON"] [bad] true) = true.
Proof.
  intros bad.
  apply (X15_strict_implies_lenient "amazon.co.jp" ["AMAZON"] [bad]);
    [discriminate | reflexivity].
Defined.

(** X16. The verdict of several IP results put together: in lenient mode
    the whole is polluted iff both parts are, in strict mode iff one part
    is. *)
Theorem X16_verdict_of_concatenation (domain : string) (expected : list string)
    (rs1 rs2 : list IPCheckResult) :
  IsPolluted (aggregateDomainResult domain expected (rs1 ++ rs2) false)
  = IsPolluted (aggregateDomainResult domain expected rs1 false)
    && IsPolluted (aggregateDomainResult domain expected rs2 false)
  /\ IsPolluted (aggregateDomainResult domain expected (rs1 ++ rs2) true)
     = IsPolluted (aggregateDomainResult domain expected rs1 true)
       || IsPolluted (aggregateDomainResult domain expected rs2 true).
Proof.
  rewrite !polluted_lenient, !polluted_strict, existsb_app, forallb_app.
  split; [apply negb_orb | apply negb_andb].
Qed.

Lemma existsb_perm {A} (f : A -> bool) (l l' : list A) :
  Permutation l l' -> existsb f l = existsb f l'.
Proof.
  induction 1 as [|x l l' Hp IH|x y l|l l' l'' Hp1 IH1 Hp2 IH2]; simpl.
  - reflexivity.
  - now rewrite IH.
  - destruct (f x), (f y); reflexivity.
  - congruence.
Qed.

Lemma forallb_perm {A} (f : A -> bool) (l l' : list A) :
  Permutation l l' -> forallb f l = forallb f l'.
Proof.
  induction 1 as [|x l l' Hp IH|x y l|l l' l'' Hp1 IH1 Hp2 IH2]; simpl.
  - reflexivity.
  - now rewrite IH.
  - destruct (f x), (f y); reflexivity.
  - congruence.
Qed.

(** X17. The verdict, and with it the summary, does not depend on the
    order of the IP results. *)
Theorem X17_verdict_order_independent (domain : string) (expected : list string)
    (rs rs' : list IPCheckResult) (strict : bool) :
  Permutation rs rs' ->
  IsPolluted (aggregateDomainResult domain expected rs strict)
  = IsPolluted (aggregateDomainResult domain expected rs' strict)
  /\ Summary (aggregateDomainResult domain expected rs strict)
     = Summary (aggregateDomainResult domain expected rs' strict).
Proof.
  intros Hp.
  pose proof (existsb_perm (ipMatch expected) rs rs' Hp) as Hex.
  pose proof (forallb_perm (ipMatch expected) rs rs' Hp) as Hall.
  assert (Hv : IsPolluted (aggregateDomainResult domain expected rs strict)
               = IsPolluted (aggregateDomainResult domain expected rs' strict)).
  { destruct strict; [rewrite !polluted_strict | rewrite !polluted_lenient]; congruence. }
  split; [exact Hv|].
  unfold aggregateDomainResult in *. cbn [IsPolluted Summary] in *. now rewrite Hv.
Qed.

Lemma X17_verdict_order_independent_witness :
  let ok := {| IP := "54.240.196.165"; ActualLLC := "AMAZON-02"; Error := None |} in
  let bad := {| IP := "203.0.113.9"; ActualLLC := "EVILCORP"; Error := None |} in
  IsPolluted (aggregateDomainResult "amazon.co.jp" ["AMAZON"] [ok; bad] true)
  = IsPolluted (aggregateDomainResult "amazon.co.jp" ["AMAZON"] [bad; ok] true).
Proof.
  intros ok bad.
  apply (X17_verdict_order_independent "amazon.co.jp" ["AMAZON"] [ok; bad] [bad; ok] true).
  apply perm_swap.
Defined.

(** X18. With an empty list of expected prefixes no label matches: the
    domain is polluted in lenient mode whatever the IP results are, and in
    strict mode as soon as there is an IP result. *)
Theorem X18_no_expected_prefix (domain : string) (ipResults : list IPCheckResult) :
  IsPolluted (aggregateDomainResult domain [] ipResults false) = true
  /\ (IsPolluted (aggregateDomainResult domain [] ipResults true) = true
      <-> ipResults <> []).
Proof.
  rewrite polluted_lenient, polluted_strict.
  assert (H : forall r, ipMatch [] r = false) by (intros r; unfold ipMatch; now destruct (Error r)).
  split.
  - induction ipResults as [|r rs IH]; simpl; [reflexivity|]. now rewrite H.
  - destruct ipResults as [|r rs]; simpl.
    + split; [discriminate | intros Hn; now destruct Hn].
    + rewrite H. split; [discriminate | reflexivity].
Qed.

(** X19. The empty string among the expected prefixes matches every label:
    a result then matches iff its lookup succeeded, so the domain is clean
    in lenient mode iff one lookup succeeded and in strict mode iff all
    did. *)
Theorem X19_empty_prefix_matches_all (domain : string) (expected : list string)
    (ipResults : list IPCheckResult) :
  "" ∈ expected ->
  (forall res, matchesRule expected res <-> Error res = None)
  /\ (IsPolluted (aggregateDomainResult domain expected ipResults false) = false
      <-> exists res, res ∈ ipResults /\ Error res = None)
  /\ (IsPolluted (aggregateDomainResult domain expected ipResults true) = false
      <-> forall res, res ∈ ipResults -> Error res = None).
Proof.
  intros Hin.
  assert (Hm : forall res, matchesRule expected res <-> Error res = None).
  { intros res. unfold matchesRule. split; [tauto|]. intros H. split; [exact H|].
    exists "". split; [exact Hin|]. exists (ActualLLC res). reflexivity. }
  assert (Hb : forall res, ipMatch expected res = true <-> Error res = None).
  { intros res. now rewrite ipMatch_spec. }
  split; [exact Hm|]. rewrite polluted_lenient, polluted_strict. split.
  - rewrite negb_false_iff, existsb_exists. split.
    + intros (r & Hr & Hrm). exists r. split; [now apply list_elem_of_In | now apply Hb].
    + intros (r & Hr & Hrm). exists r. split; [now apply list_elem_of_In | now apply Hb].
  - rewrite negb_false_iff, forallb_forall. split.
    + intros H r Hr. apply Hb, H. now apply list_elem_of_In.
    + intros H r Hr. apply Hb, H. now apply list_elem_of_In.
Qed.

Lemma X19_empty_prefix_matches_all_witness :
  let res := {| IP := "203.0.113.9"; ActualLLC := "EVILCORP"; Error := None |} in
  matchesRule ["AMAZON"; ""] res <-> Error res = None.
Proof.
  intros res.
  apply (X19_empty_prefix_matches_all "d" ["AMAZON"; ""] [res]).
  right. left.
Defined.

(** X20. When every lookup of a domain failed the domain is polluted: in
    lenient mode always, in strict mode if there is at least one IP
    result. *)
Theorem X20_all_lookups_failed (domain : string) (expected : list string)
    (ipResults : list IPCheckResult) (strict : bool) :
  ipResults <> [] ->
  (forall res, res ∈ ipResults -> is_Some (Error res)) ->
  IsPolluted (aggregateDomainResult domain expected ipResults strict) = true.
Proof.
  intros Hne Hfail.
  assert (H : forall res, res ∈ ipResults -> ipMatch expected res = false).
  { intros res Hr. destruct (Hfail res Hr) as [e He]. unfold ipMatch. now rewrite He. }
  destruct strict; [rewrite polluted_strict | rewrite polluted_lenient].
  - destruct ipResults as [|r rs]; [contradiction|]. simpl.
    rewrite (H r) by left. reflexivity.
  - apply negb_true_iff. clear Hne Hfail.
    induction ipResults as [|r rs IH]; simpl; [reflexivity|].
    rewrite (H r) by left. simpl. apply IH. intros res Hr. apply H. now right.
Qed.

Lemma X20_all_lookups_failed_witness :
  let res := {| IP := "203.0.113.9"; ActualLLC := "";
                Error := Some (ErrString "所有 API 尝试均失败: %!w(<nil>)") |} in
  IsPolluted (aggregateDomainResult "amazon.co.jp" ["AMAZON"] [res] false) = true.
Proof.
  intros res.
  apply (X20_all_lookups_failed "amazon.co.jp" ["AMAZON"] [res] false).
  - discriminate.
  - intros r Hr. apply list_elem_of_singleton in Hr as ->. eexists. reflexivity.
Defined.

(** X21. More expected prefixes can only clear a domain: if every expected
    prefix of one list is in another, a domain that is clean under the first
    list is clean under the second, in both modes. *)
Theorem X21_more_prefixes_only_clear (domain : string) (expected expected' : list string)
    (ipResults : list IPCheckResult) (strict : bool) :
  expected ⊆ expected' ->
  IsPolluted (aggregateDomainResult domain expected ipResults strict) = false ->
  IsPolluted (aggregateDomainResult domain expected' ipResults strict) = false.
Proof.
  intros Hsub.
  assert (Hmono : forall res, ipMatch expected res = true -> ipMatch expected' res = true).
  { intros res. rewrite !ipMatch_spec. unfold matchesRule.
    intros (He & exp & Hin & Hst). split; [exact He|]. exists exp. split; [|exact Hst].
    now apply Hsub. }
  destruct strict; [rewrite !polluted_strict | rewrite !polluted_lenient];
    rewrite !negb_false_iff.
  - rewrite !forallb_forall. intros H r Hr. apply Hmono, H, Hr.
  - rewrite !existsb_exists. intros (r & Hr & Hm). exists r. split; [exact Hr | now apply Hmono].
Qed.

Lemma X21_more_prefixes_only_clear_witness :
  let ok := {| IP := "54.240.196.165"; ActualLLC := "AMAZON-02"; Error := None |} in
  IsPolluted (aggregateDomainResult "d" ["GOOGLE"; "AMAZON"] [ok] true) = false.
Proof.
  intros ok.
  apply (X21_more_prefixes_only_clear "d" ["AMAZON"] ["GOOGLE"; "AMAZON"] [ok] true).
  - intros x Hx. now right.
  - reflexivity.
Defined.

(** X22. The summary is one of four fixed texts, and it tells mode and
    verdict apart: two results with the same summary were computed in the
    same mode and carry the same verdict. *)
Theorem X22_summary_identifies_mode_and_verdict
    (d d' : string) (e e' : list string) (rs rs' : list IPCheckResult) (s s' : bool) :
  Summary (aggregateDomainResult d e rs s) = Summary (aggregateDomainResult d' e' rs' s') ->
  s = s'
  /\ IsPolluted (aggregateDomainResult d e rs s)
     = IsPolluted (aggregateDomainResult d' e' rs' s').
Proof.
  unfold aggregateDomainResult. cbn [Summary IsPolluted].
  destruct s, s';
    destruct (negb (allMatch (runLoop e rs))), (negb (anySuccess (runLoop e rs))),
             (negb (allMatch (runLoop e' rs'))), (negb (anySuccess (runLoop e' rs')));
    intros H; try (split; reflexivity); vm_compute in H; discriminate H.
Qed.

Lemma X22_summary_identifies_mode_and_verdict_witness :
  true = true
  /\ IsPolluted (aggregateDomainResult "a" ["AMAZON"] [] true)
     = IsPolluted (aggregateDomainResult "b" ["GOOGLE"] [] true).
Proof.
  apply (X22_summary_identifies_mode_and_verdict "a" "b" ["AMAZON"] ["GOOGLE"] [] [] true true).
  reflexivity.
Defined.

End AggregatorMore.

(** ** More on the orchestrator *)

Module OrchestratorMore.
Import Lookup Orchestrator Spec Measure LookupFacts OrchestratorFacts OrchestratorSpec.

Lemma waits_app (t1 t2 : list event) : waits (t1 ++ t2) = (waits t1 + waits t2)%nat.
Proof. induction t1 as [|[| | |] t1 IH]; simpl; rewrite ?IH; reflexivity. Qed.

Lemma resolved_app (t1 t2 : list event) :
  resolved (t1 ++ t2) = (resolved t1 ++ resolved t2)%list.
Proof. induction t1 as [|[| | |] t1 IH]; simpl; rewrite ?IH; reflexivity. Qed.

(** The calls of a lookup are requests and sleeps only. *)
Lemma attemptsTrace_quiet url : forall k a,
  waits (attemptsTrace url a k) = 0%nat /\ resolved (attemptsTrace url a k) = [].
Proof.
  induction k as [|[|k] IH]; intros a; [split; reflexivity | split; reflexivity |].
  rewrite attemptsTrace_SS. cbn [waits resolved]. apply IH.
Qed.

Lemma segment_quiet apis maxRetries ip seg :
  lookupSegment apis maxRetries ip seg -> waits seg = 0%nat /\ resolved seg = [].
Proof.
  intros [(ks & _ & _ & ->) _]. revert ks.
  induction apis as [|b apis IH]; intros [|k ks]; try (split; reflexivity).
  cbn [endpointsTrace]. rewrite waits_app, resolved_app.
  destruct (attemptsTrace_quiet (b +:+ ip) k 0) as [-> ->].
  destruct (IH ks) as [-> ->]. split; reflexivity.
Qed.

(** The calls of the loop over the addresses: one wait per address if
    there is a limiter, no resolution. *)
Lemma ipLoop_measure env fl limiter ips acc tr :
  waits (snd (ipLoop env fl limiter ips acc tr))
  = (waits tr + length (waitTrace limiter) * length ips)%nat
  /\ resolved (snd (ipLoop env fl limiter ips acc tr)) = resolved tr
  /\ exists new, fst (ipLoop env fl limiter ips acc tr) = (acc ++ new)%list
       /\ map IP new = ips /\ Forall okResult new.
Proof.
  destruct (ipLoop_shape env fl limiter ips acc tr)
    as (segs & new & Hsegs & Hsnd & Hfst & Hips & Hok).
  rewrite Hsnd, waits_app, resolved_app.
  assert (Hm : waits (concat (map (app (waitTrace limiter)) segs))
               = (length (waitTrace limiter) * length ips)%nat
               /\ resolved (concat (map (app (waitTrace limiter)) segs)) = []).
  { clear - Hsegs. induction Hsegs as [|ip seg ips' segs' Hseg _ IH].
    - simpl. split; [lia | reflexivity].
    - destruct IH as [IH1 IH2]. destruct (segment_quiet _ _ _ _ Hseg) as [Hw Hr].
      cbn [map concat length]. rewrite !waits_app, !resolved_app, Hw, Hr, IH1, IH2.
      split; [|now destruct limiter].
      destruct limiter; simpl; lia. }
  destruct Hm as [-> ->]. rewrite app_nil_r.
  split; [reflexivity|]. split; [reflexivity|]. exists new. auto.
Qed.

(** X23. A domain that resolves to at least one address gets the verdict
    of the aggregator over one IP result per address, in the order of the
    resolution, each holding the address it was looked up for. *)
Theorem X23_resolved_domain (env : Env) (fl : Flags) (limiter : option Limiter)
    (dc : DomainConfig) (tr : list event) (ips : list string) :
  lookupIP env tr (timeout fl) (Name dc) = (ips, None) ->
  ips <> [] ->
  let res := fst (domainTask env fl limiter dc tr) in
  map IP (IPResults res) = ips
  /\ Forall okResult (IPResults res)
  /\ res = Aggregator.aggregateDomainResult (Name dc) (ExpectedLlcs dc)
             (IPResults res) (strict fl).
Proof.
  intros Hl Hne res. subst res. rewrite domainTask_cases. cbv zeta. rewrite Hl.
  destruct ips as [|ip ips]; [contradiction|]. cbn [length Nat.eqb fst].
  destruct (ipLoop_measure env fl limiter (ip :: ips) []
              (tr ++ [EvLookupIP (Name dc)])%list) as (_ & _ & new & Hfst & Hips & Hok).
  rewrite Hfst. cbn [app]. unfold Aggregator.aggregateDomainResult. cbn [IPResults].
  auto.
Qed.

Lemma X23_resolved_domain_witness :
  let fl := Scenario.flags [Scenario.api] 2 in
  let dc := {| Name := "amazon.co.jp"; ExpectedLlcs := ["AMAZON"] |} in
  map IP (IPResults (fst (domainTask Scenario.flaky fl (newLimiter fl) dc [])))
  = [Scenario.ip1].
Proof.
  intros fl dc.
  apply (X23_resolved_domain Scenario.flaky fl (newLimiter fl) dc [] [Scenario.ip1]);
    [reflexivity | discriminate].
Defined.

(** The calls of the task of one domain. *)
Lemma domainTask_measure env fl limiter dc tr :
  resolved (snd (domainTask env fl limiter dc tr)) = (resolved tr ++ [Name dc])%list
  /\ waits (snd (domainTask env fl limiter dc tr))
     = (waits tr + length (waitTrace limiter)
                   * length (IPResults (fst (domainTask env fl limiter dc tr))))%nat.
Proof.
  rewrite domainTask_cases. cbv zeta.
  destruct (lookupIP env tr (timeout fl) (Name dc)) as [ips [err|]].
  - cbn [fst snd IPResults length]. rewrite resolved_app, waits_app. simpl. split; [reflexivity | lia].
  - destruct (length ips =? 0)%nat.
    + cbn [fst snd IPResults length]. rewrite resolved_app, waits_app. simpl.
      split; [reflexivity | lia].
    + cbn [fst snd]. unfold Aggregator.aggregateDomainResult. cbn [IPResults].
      destruct (ipLoop_measure env fl limiter ips [] (tr ++ [EvLookupIP (Name dc)])%list)
        as (Hw & Hr & new & Hfst & Hips & _).
      rewrite Hw, Hr, Hfst, resolved_app, waits_app. cbn [app].
      assert (length new = length ips) by (rewrite <- Hips; now rewrite length_map).
      simpl. split; [reflexivity | lia].
Qed.


(** X25. The limiter exists only for a positive [-rps]: for zero, a
    negative number or a NaN no token is ever taken during a run; with a
    positive [-rps] a run takes exactly one token per IP result it
    produces. *)
Theorem X25_tokens_of_a_run (env : Env) (fl : Flags) (domains : list DomainConfig)
    (tr : list event) :
  (newLimiter fl = None <-> SFltb (S754_zero false) (rps fl) = false)
  /\ (SFltb (S754_zero false) (rps fl) = false ->
      waits (snd (run env fl domains tr)) = waits tr)
  /\ (SFltb (S754_zero false) (rps fl) = true ->
      waits (snd (run env fl domains tr))
      = (waits tr + ipResultCount (fst (run env fl domains tr)))%nat).
Proof.
  assert (Hgen : forall limiter t,
            waits (snd (runTasks env fl limiter domains t))
            = (waits t + length (waitTrace limiter)
                         * ipResultCount (fst (runTasks env fl limiter domains t)))%nat).
  { intros limiter. induction domains as [|dc rest IH]; intros t.
    - simpl. lia.
    - rewrite runTasks_cons. cbn [fst snd ipResultCount].
      rewrite IH. destruct (domainTask_measure env fl limiter dc t) as [_ ->]. lia. }
  unfold run, newLimiter.
  destruct (SFltb (S754_zero false) (rps fl)) eqn:E.
  - split; [split; discriminate|]. split; [discriminate|]. intros _.
    rewrite Hgen. simpl. lia.
  - split; [split; reflexivity|]. split; [|discriminate]. intros _.
    rewrite Hgen. simpl. lia.
Qed.

Lemma X25_tokens_of_a_run_witness :
  let fl := Scenario.flags [Scenario.api] 2 in
  let dc := {| Name := "amazon.co.jp"; ExpectedLlcs := ["AMAZON"] |} in
  waits (snd (run Scenario.flaky fl [dc] []))
  = (waits [] + ipResultCount (fst (run Scenario.flaky fl [dc] [])))%nat.
Proof.
  intros fl dc.
  apply (proj2 (proj2 (X25_tokens_of_a_run Scenario.flaky fl [dc] []))).
  reflexivity.
Defined.

End OrchestratorMore.

(** ** More on the report *)

Module ReportMore.
Import Report ReportText ReportSpec Spec.

Lemma filter_length_perm {A} (f : A -> bool) (l l' : list A) :
  Permutation l l' -> length (List.filter f l) = length (List.filter f l').
Proof.
  induction 1 as [|x l l' Hp IH|x y l|l l' l'' Hp1 IH1 Hp2 IH2]; simpl.
  - reflexivity.
  - destruct (f x); simpl; now rewrite IH.
  - destruct (f x), (f y); reflexivity.
  - congruence.
Qed.

(** X26. The statistics of the report do not depend on the order in which
    the domain results arrive. *)
Theorem X26_statistics_order_independent (results results' : list DomainResult) :
  Permutation results results' -> buildReport results = buildReport results'.
Proof.
  intros Hp. unfold buildReport.
  rewrite !countPolluted_spec, (filter_length_perm IsPolluted _ _ Hp),
          (Permutation_length Hp).
  reflexivity.
Qed.

Lemma X26_statistics_order_independent_witness :
  let clean := {| Domain := "a.example"; Expected := ["AMAZON"]; IPResults := [];
                  IsPolluted := false; Summary := "至少有一个 IP 符合预期" |} in
  let bad := {| Domain := "b.example"; Expected := ["GOOGLE"]; IPResults := [];
                IsPolluted := true; Summary := "没有找到 IPv4 地址" |} in
  buildReport [clean; bad] = buildReport [bad; clean].
Proof.
  intros clean bad. apply (X26_statistics_order_independent [clean; bad] [bad; clean]).
  apply perm_swap.
Defined.

(** X27. The number of polluted domains lies between 0 and the number of
    domains; it is 0 exactly when no result is marked polluted and equal to
    the total exactly when all are. *)
Theorem X27_polluted_count_bounds (results : list DomainResult) :
  0 <= pollutedCount (buildReport results) <= total (buildReport results)
  /\ (pollutedCount (buildReport results) = 0
      <-> forall res, res ∈ results -> IsPolluted res = false)
  /\ (pollutedCount (buildReport results) = total (buildReport results)
      <-> forall res, res ∈ results -> IsPolluted res = true).
Proof.
  unfold buildReport. cbn [pollutedCount total]. rewrite countPolluted_spec, Z.add_0_l.
  induction results as [|r rs (IH1 & IH2 & IH3)].
  - simpl. split; [lia|]. split; (split; [intros _ res Hr; inversion Hr | reflexivity]).
  - cbn [List.filter length] in *.
    assert (Hle : (length (List.filter IsPolluted rs) <= length rs)%nat) by lia.
    destruct (IsPolluted r) eqn:Er; cbn [length]; (split; [lia|]); split; split.
    + lia.
    + intros H. specialize (H r ltac:(left)). congruence.
    + intros H res Hr. apply elem_of_cons in Hr as [-> | Hr]; [exact Er|].
      apply IH3; [lia | exact Hr].
    + intros H. assert (Z.of_nat (length (List.filter IsPolluted rs)) = Z.of_nat (length rs)).
      { apply IH3. intros res Hr. apply H. now right. }
      lia.
    + intros H res Hr. apply elem_of_cons in Hr as [-> | Hr]; [exact Er|].
      apply IH2; [lia | exact Hr].
    + intros H. apply IH2. intros res Hr. apply H. now right.
    + lia.
    + intros H. specialize (H r ltac:(left)). congruence.
Qed.



End ReportMore.

(** ** The list of endpoints *)

Module CliFacts.
Import Cli Lookup Spec Measure LookupFacts CostFacts.

Lemma splitComma_nonempty (s : string) : splitComma s <> [].
Proof.
  destruct s as [|c s]; simpl; [discriminate|].
  destruct (Ascii.eqb c ","); [discriminate|]. now destruct (splitComma s).
Qed.

Lemma splitComma_fields (s : string) :
  length (splitComma s) = S (commas s)
  /\ Forall (fun field => hasByte "," field = false) (splitComma s)
  /\ joinComma (splitComma s) = s.
Proof.
  induction s as [|c s (IH1 & IH2 & IH3)]; [repeat split; repeat constructor|].
  simpl. destruct (Ascii.eqb c ",") eqn:Ec.
  - apply Ascii.eqb_eq in Ec. subst c. simpl. rewrite IH1, IH3.
    split; [reflexivity|]. split; [constructor; [reflexivity | exact IH2]|].
    pose proof (splitComma_nonempty s). now destruct (splitComma s).
  - pose proof (splitComma_nonempty s) as Hne.
    destruct (splitComma s) as [|field fields]; [contradiction|].
    simpl in IH1. split; [simpl; exact IH1|]. split.
    + inversion IH2; subst. constructor; [|assumption].
      cbn [hasByte]. rewrite Ascii.eqb_sym, Ec. assumption.
    + rewrite <- IH3. now destruct fields.
Qed.

(** X29. The list of endpoints has one entry more than [-api] has commas:
    empty fields are kept, so that an empty [-api], a leading, a trailing or
    a doubled comma each give an endpoint of their own.  The entries are
    the trimmed fields of [-api]: strings without a comma which, joined with
    commas, give [-api] back. *)
Theorem X29_endpoints_of_api_flag (TrimSpace : string -> string) (apiURL : string) :
  length (parseAPIList TrimSpace apiURL) = S (commas apiURL)
  /\ exists fields,
       parseAPIList TrimSpace apiURL = map TrimSpace fields
       /\ Forall (fun field => hasByte "," field = false) fields
       /\ joinComma fields = apiURL.
Proof.
  destruct (splitComma_fields apiURL) as (H1 & H2 & H3).
  unfold parseAPIList. rewrite length_map. split; [exact H1|].
  exists (splitComma apiURL). auto.
Qed.

(** X30. Whatever [-api] holds, the list of endpoints is not empty; so with
    [maxRetries >= 0] every lookup makes at least one request, the first one
    to the first field of [-api], and a lookup that fails returns an error
    that wraps the failure of a request. *)
Theorem X30_lookup_over_parsed_endpoints (env : Env) (TrimSpace : string -> string)
    (apiURL ip : string) (timeout maxRetries : Z) (tr : list event) :
  0 <= maxRetries ->
  let apis := parseAPIList TrimSpace apiURL in
  let r := fetchLLCWithRetry env ip apis timeout maxRetries tr in
  (exists first rest ext,
     apis = first :: rest /\ snd r = (tr ++ EvGet (first +:+ ip) :: ext)%list)
  /\ (forall err, snd (fst r) = Some err -> exists e, unwrap err = Some e).
Proof.
  intros Hmax apis r. subst r.
  assert (Hne : apis <> []).
  { unfold apis, parseAPIList. pose proof (splitComma_nonempty apiURL).
    now destruct (splitComma apiURL). }
  destruct apis as [|first rest] eqn:Ea; [contradiction|]. split.
  - destruct (fetch_first env ip first rest timeout maxRetries tr Hmax) as [ext Hext].
    exists first, rest, ext. auto.
  - intros err Herr.
    destruct (endpointLoop_shape env ip timeout maxRetries (first :: rest) None tr)
      as (_ & _ & _ & _ & _ & Hok).
    unfold fetchOk in Hok.
    fold (fetchLLCWithRetry env ip (first :: rest) timeout maxRetries) in Hok.
    destruct (fst (fetchLLCWithRetry env ip (first :: rest) timeout maxRetries tr))
      as [llc o].
    simpl in Herr. subst o.
    destruct Hok as [_ [([Hnil | HN] & _) | (b & tr0 & e & _ & _ & _ & ->)]].
    + discriminate.
    + lia.
    + exists e. reflexivity.
Qed.

Lemma X30_lookup_over_parsed_endpoints_witness :
  exists first rest ext,
    parseAPIList (fun s => s) "" = first :: rest
    /\ snd (fetchLLCWithRetry Scenario.down Scenario.ip1 (parseAPIList (fun s => s) "")
              Scenario.tenSeconds 0 [])
       = ([] ++ EvGet (first +:+ Scenario.ip1) :: ext)%list.
Proof.
  apply (X30_lookup_over_parsed_endpoints Scenario.down (fun s => s) "" Scenario.ip1
           Scenario.tenSeconds 0 []).
  lia.
Defined.

End CliFacts.
